(** * VideoDLP: the FIFO job queue and the download worker

    A shallow embedding of [job_queue.py] (the [Job] dataclass and the
    [JobQueue] scheduler) and of [worker.py] (the progress hook and the
    thread entry point of [DownloadWorker]), with the properties of the
    scheduler and of the worker stated over it.

    Python objects have identity: a [Job] is a reference into an object
    store ([heap]), and the deque [_pending] and the list [_running] hold
    references.  [Job] is a [@dataclass], so [==] on jobs compares the
    fields; [in], [index] and [remove] on lists and deques use identity
    first and [==] next.  Both are modelled. *)

From Stdlib Require Import ZArith Lia String Ascii.
From stdpp Require Import base tactics option list sorting strings gmap.

(** ** Python exceptions and fallible results *)

Inductive ExcClass :=
  | ValueError
  | DownloadError
  | OtherException
  | KeyboardInterrupt
  | SystemExit.

(** [isinstance(exc, Exception)]: [KeyboardInterrupt] and [SystemExit]
    derive from [BaseException] only. *)
Definition is_Exception (c : ExcClass) : bool :=
  match c with
  | KeyboardInterrupt | SystemExit => false
  | _ => true
  end.

Record PyExc := mkExc { exc_class : ExcClass; exc_str : string }.

(** The result of running a piece of Python: a value, a raised exception,
    or [Stuck] when the model follows a reference that is not in the object
    store (which has no counterpart in Python and never happens from the
    initial queue, see [run_op_total]). *)
Inductive res (A : Type) :=
  | Ok (a : A)
  | Raise (e : PyExc)
  | Stuck.
Arguments Ok {A} a.
Arguments Raise {A} e.
Arguments Stuck {A}.

(** Sequencing: an exception raised by the first part skips the rest. *)
#[global] Instance res_bind : MBind res := fun A B k m =>
  match m with
  | Ok a => k a
  | Raise e => Raise e
  | Stuck => Stuck
  end.

(** ** The download worker ([worker.py])

    A Python [str] is modelled as a [string] whose characters are the code
    points below 256. *)

Definition code (c : ascii) : nat := nat_of_ascii c.

Definition in_range (lo hi : nat) (c : ascii) : bool :=
  (lo <=? code c) && (code c <=? hi).

(** An ASCII decimal digit. *)
Definition is_digit (c : ascii) : bool := in_range 48 57 c.

(** [str.isspace] of one character: TAB to CR, FS to US, the space, NEL and
    the no-break space. *)
Definition is_space (c : ascii) : bool :=
  in_range 9 13 c || in_range 28 32 c || (code c =? 133) || (code c =? 160).

(** [Py_ISSPACE] of C: the ASCII whitespace. *)
Definition is_c_space (c : ascii) : bool :=
  in_range 9 13 c || (code c =? 32).

Fixpoint lstrip (sp : ascii → bool) (s : string) : string :=
  match s with
  | EmptyString => EmptyString
  | String c s' => if sp c then lstrip sp s' else s
  end.

Fixpoint rstrip (sp : ascii → bool) (s : string) : string :=
  match s with
  | EmptyString => EmptyString
  | String c s' =>
    match rstrip sp s' with
    | EmptyString => if sp c then EmptyString else String c EmptyString
    | t => String c t
    end
  end.

(** [s.strip()] *)
Definition strip (s : string) : string := rstrip is_space (lstrip is_space s).

(** [s.replace(c, repl)] for a one-character [c] and an empty [repl]. *)
Fixpoint remove_char (c : ascii) (s : string) : string :=
  match s with
  | EmptyString => EmptyString
  | String d s' =>
    if Ascii.eqb c d then remove_char c s' else String d (remove_char c s')
  end.

(** [_ANSI_RE = re.compile(r"\x1b\[[0-9;]*m")].  [ansi_params s] is the
    length of a match of [[0-9;]*m] at the start of [s]; the star is greedy
    and ['m'] is outside the class, so there is at most one. *)
Definition esc : ascii := "027"%char.

Definition is_ansi_param (c : ascii) : bool := is_digit c || Ascii.eqb c ";".

Fixpoint ansi_params (s : string) : option nat :=
  match s with
  | EmptyString => None
  | String c s' =>
    if is_ansi_param c then S <$> ansi_params s'
    else if Ascii.eqb c "m" then Some 1
    else None
  end.

(** The length of a match of [_ANSI_RE] at the start of [s]. *)
Definition ansi_match (s : string) : option nat :=
  match s with
  | String c1 (String c2 s') =>
    if Ascii.eqb c1 esc && Ascii.eqb c2 "[" then (fun n => 2 + n) <$> ansi_params s'
    else None
  | _ => None
  end.

(** [_ANSI_RE.sub(repl, s)] for an empty [repl]: scanning from the left,
    every match is dropped and the scan goes on after it; [skip] counts the
    characters of the current match still to drop. *)
Fixpoint ansi_sub_from (skip : nat) (s : string) : string :=
  match s with
  | EmptyString => EmptyString
  | String c s' =>
    match skip with
    | S k => ansi_sub_from k s'
    | O =>
      match ansi_match s with
      | Some n => ansi_sub_from (pred n) s'
      | None => String c (ansi_sub_from 0 s')
      end
    end
  end.

Definition ansi_sub (s : string) : string := ansi_sub_from 0 s.

(** *** [float(str)]

    The value of a Python float is kept as the decimal that was read:
    [FNum neg m e] stands for the double nearest to [(-1)^neg * m * 10^e].
    [0.0] and [42.0] are exact. *)
Inductive PyFloat :=
  | FNum (neg : bool) (mant : N) (exp10 : Z)
  | FInf (neg : bool)
  | FNan.

(** [0.0], also the value of [float(0)]. *)
Definition float_zero : PyFloat := FNum false 0 0.

(** [float(n)] for a natural number [n]. *)
Definition float_of_N (n : N) : PyFloat := FNum false n 0.

(** [_PyUnicode_TransformDecimalAndSpaceToASCII]: above 127, whitespace
    becomes a space and anything else (no code point from 128 to 255 is a
    decimal digit) becomes ['?'] and ends the text. *)
Fixpoint to_ascii_decimal (s : string) : string :=
  match s with
  | EmptyString => EmptyString
  | String c s' =>
    if 127 <? code c then
      if is_space c then String " " (to_ascii_decimal s') else "?"
    else String c (to_ascii_decimal s')
  end.

(** [_Py_string_to_number_with_underscores]: an underscore is allowed only
    between two digits; the text without its underscores is parsed. *)
Fixpoint drop_underscores (prev : ascii) (s : string) : option string :=
  match s with
  | EmptyString => if Ascii.eqb prev "_" then None else Some EmptyString
  | String c s' =>
    if Ascii.eqb c "_" then
      if is_digit prev then drop_underscores c s' else None
    else if Ascii.eqb prev "_" && negb (is_digit c) then None
    else String c <$> drop_underscores c s'
  end.

Definition digit_value (c : ascii) : N := N.of_nat (code c - 48).

(** The longest run of digits at the start of [s]: its value appended to
    [acc], its length added to [cnt], and the rest of [s]. *)
Fixpoint digits_from (acc : N) (cnt : nat) (s : string) : N * nat * string :=
  match s with
  | EmptyString => (acc, cnt, EmptyString)
  | String c s' =>
    if is_digit c then digits_from (10 * acc + digit_value c) (S cnt) s'
    else (acc, cnt, s)
  end.

Definition parse_sign (s : string) : bool * string :=
  match s with
  | String "-" s' => (true, s')
  | String "+" s' => (false, s')
  | _ => (false, s)
  end.

Definition to_lower (c : ascii) : ascii :=
  if in_range 65 90 c then ascii_of_nat (code c + 32) else c.

Fixpoint lower (s : string) : string :=
  match s with
  | EmptyString => EmptyString
  | String c s' => String (to_lower c) (lower s')
  end.

(** The number syntax of [_Py_dg_strtod], which must use up the text:
    digits with an optional point, at least one digit, and an optional
    exponent with at least one digit. *)
Definition parse_number (neg : bool) (s : string) : option PyFloat :=
  let '(m1, n1, r1) := digits_from 0 0 s in
  let '(m2, n2, r2) :=
    match r1 with
    | String "." r => digits_from m1 0 r
    | _ => (m1, 0, r1)
    end in
  if (n1 + n2 =? 0) then None
  else
    match r2 with
    | EmptyString => Some (FNum neg m2 (- Z.of_nat n2))
    | String c r3 =>
      if Ascii.eqb (to_lower c) "e" then
        let '(eneg, r4) := parse_sign r3 in
        let '(e, ne, r5) := digits_from 0 0 r4 in
        if ne =? 0 then None
        else
          match r5 with
          | EmptyString =>
            let ez := if eneg then (- Z.of_N e)%Z else Z.of_N e in
            Some (FNum neg m2 (ez - Z.of_nat n2))
          | _ => None
          end
      else None
    end.

(** [_PyOS_ascii_strtod]: a number, or else [inf], [infinity] or [nan] in
    any case, with an optional sign. *)
Definition parse_float (s : string) : option PyFloat :=
  let '(neg, r) := parse_sign s in
  match parse_number neg r with
  | Some f => Some f
  | None =>
    let l := lower r in
    if String.eqb l "inf" || String.eqb l "infinity" then Some (FInf neg)
    else if String.eqb l "nan" then Some FNan
    else None
  end.

(** [float(s)] for a [str] [s]. *)
Definition py_float (s : string) : res PyFloat :=
  match drop_underscores "000" (to_ascii_decimal s) with
  | None => Raise (mkExc ValueError "could not convert string to float")
  | Some t =>
    match parse_float (rstrip is_c_space (lstrip is_c_space t)) with
    | None => Raise (mkExc ValueError "could not convert string to float")
    | Some f => Ok f
    end
  end.

(** *** The signals of a worker and its two methods *)

Inductive WorkerSignal :=
  | Progress (pct : PyFloat) (name : string)
  | Status (txt : string)
  | Log (msg : string).

(** [try: body except ValueError: handler] *)
Definition except_ValueError {A} (body : res A) (handler : A) : res A :=
  match body with
  | Raise e =>
    match exc_class e with
    | ValueError => Ok handler
    | _ => Raise e
    end
  | r => r
  end.

(** Lines 34 to 38 of [_hook]: the percentage read from [_percent_str]. *)
Definition percent_of (percent_str : string) : res PyFloat :=
  let pct_raw := ansi_sub (remove_char "%" percent_str) in
  except_ValueError
    (match strip pct_raw with
     | EmptyString => Ok float_zero
     | t => py_float t
     end)
    float_zero.

Section WorkerModel.

(** [Path(s).name] of [pathlib], which the worker only passes on. *)
Variable path_name : string → string.

(** [data.get(key, default)] with the empty string as default. *)
Definition get_str (data : gmap string string) (key : string) : string :=
  default EmptyString (data !! key).

(** [_hook(data)]: the signals it emits. *)
Definition _hook (data : gmap string string) : res (list WorkerSignal) :=
  if bool_decide (data !! "status" = Some "downloading") then
    pct ← percent_of (get_str data "_percent_str");
    Ok [Progress pct (path_name (get_str data "filename"))]
  else Ok [].

(** What the engine does during one call of [download]: it invokes the
    progress hook and the logger any number of times, then returns
    ([None]) or raises. *)
Inductive Callback :=
  | HookCall (data : gmap string string)
  | LogCall (msg : string).

Record EngineRun := mkEngineRun {
  callbacks : list Callback;
  outcome : option PyExc
}.

(** [yt_dlp.YoutubeDL(opts).download(self._urls)], where [opts] is a copy
    of the worker's options with [self._hook] as progress hook and a
    [_QtLogger] as logger, whose three methods all emit on [log_signal]:
    the signals emitted by the callbacks and the exception raised, if any.
    An exception leaving a callback ends the call.  ([Stuck] does not arise
    here: the hook follows no reference.) *)
Fixpoint download (cbs : list Callback) (outc : option PyExc)
  : list WorkerSignal * option PyExc :=
  match cbs with
  | [] => ([], outc)
  | HookCall data :: cbs' =>
    match _hook data with
    | Ok sigs => let '(rest, o) := download cbs' outc in (sigs ++ rest, o)
    | Raise e => ([], Some e)
    | Stuck => ([], outc)
    end
  | LogCall msg :: cbs' =>
    let '(rest, o) := download cbs' outc in (Log msg :: rest, o)
  end.

(** The result of the thread: the signals emitted and the exception that
    leaves [run], if any. *)
Record RunResult := mkRunResult {
  emitted : list WorkerSignal;
  uncaught : option PyExc
}.

(** [DownloadWorker.run] *)
Definition run (e : EngineRun) : RunResult :=
  let '(sigs, o) := download (callbacks e) (outcome e) in
  match o with
  | None => mkRunResult (sigs ++ [Status "Finished"]) None
  | Some exc =>
    if is_Exception (exc_class exc)
    then mkRunResult (sigs ++ [Status ("Error: " +:+ exc_str exc)]) None
    else mkRunResult sigs (Some exc)
  end.

(** The texts emitted on [status_signal]. *)
Definition statuses (l : list WorkerSignal) : list string :=
  omap (fun s => match s with Status t => Some t | _ => None end) l.

End WorkerModel.

(** ** The job queue ([job_queue.py]) *)

Section QueueModel.

(** The yt-dlp option dictionary is opaque to the queue; only its [==] is
    observed, through the dataclass equality of [Job]. *)
Context {Opts : Type} `{!EqDecision Opts}.

(** *** Data model *)

(** [state: str], one of the five values the code assigns. *)
Inductive JobState := Queued | Running | Done | Error | Cancelled.

#[global] Instance JobState_eq_dec : EqDecision JobState.
Proof. solve_decision. Defined.

(** [@dataclass class Job]; [worker] is a reference into the worker store. *)
Record Job := mkJob {
  urls : list string;
  opts : Opts;
  out_dir : string;
  state : JobState;
  worker : option nat
}.

(** The [__eq__] that [@dataclass] generates: all fields equal.  Workers are
    [QThread] objects and compare by identity. *)
#[global] Instance Job_eq_dec : EqDecision Job.
Proof. solve_decision. Defined.

(** A [DownloadWorker] created by the queue: the arguments of its
    constructor, the job captured by the lambdas connected to its
    [status_signal] and [finished] signals, and whether [terminate()] has
    been called on it.  Workers are stored in the order they are created and
    started. *)
Record Worker := mkWorker {
  w_urls : list string;
  w_opts : Opts;
  w_job : nat;
  w_terminated : bool
}.

(** What the queue emits on its three signals. *)
Inductive Signal :=
  | JobUpdated (idx : Z)
  | Message (txt : string)
  | QueueEmpty.

#[global] Instance Signal_eq_dec : EqDecision Signal.
Proof. solve_decision. Defined.

(** [class JobQueue]: the three attributes of the object, the object stores
    its references point into, and the signals emitted so far (oldest
    first). *)
Record JobQueue := mkQueue {
  _max_parallel : Z;
  _pending : list nat;
  _running : list nat;
  heap : list Job;
  workers : list Worker;
  signals : list Signal
}.

Definition set_max_parallel (n : Z) (q : JobQueue) : JobQueue :=
  mkQueue n (_pending q) (_running q) (heap q) (workers q) (signals q).
Definition set_pending (p : list nat) (q : JobQueue) : JobQueue :=
  mkQueue (_max_parallel q) p (_running q) (heap q) (workers q) (signals q).
Definition set_running (r : list nat) (q : JobQueue) : JobQueue :=
  mkQueue (_max_parallel q) (_pending q) r (heap q) (workers q) (signals q).
Definition set_heap (h : list Job) (q : JobQueue) : JobQueue :=
  mkQueue (_max_parallel q) (_pending q) (_running q) h (workers q) (signals q).
Definition set_workers (w : list Worker) (q : JobQueue) : JobQueue :=
  mkQueue (_max_parallel q) (_pending q) (_running q) (heap q) w (signals q).
Definition emit (s : Signal) (q : JobQueue) : JobQueue :=
  mkQueue (_max_parallel q) (_pending q) (_running q) (heap q) (workers q)
          (signals q ++ [s]).

(** [job.state = s] *)
Definition with_state (s : JobState) (j : Job) : Job :=
  mkJob (urls j) (opts j) (out_dir j) s (worker j).
Definition set_state (r : nat) (s : JobState) (q : JobQueue) : JobQueue :=
  set_heap (alter (with_state s) r (heap q)) q.

(** [job.worker = worker; job.state = "Running"] *)
Definition with_worker (w : nat) (j : Job) : Job :=
  mkJob (urls j) (opts j) (out_dir j) Running (Some w).

(** [worker.terminate()] *)
Definition terminated (w : Worker) : Worker :=
  mkWorker (w_urls w) (w_opts w) (w_job w) true.
Definition terminate (w : nat) (q : JobQueue) : JobQueue :=
  set_workers (alter terminated w (workers q)) q.

(** [JobQueue.__init__] *)
Definition init (max_par : Z) : JobQueue := mkQueue max_par [] [] [] [] [].

(** *** Python's list operations on job references *)

(** [x is y or x == y] *)
Definition py_eq (h : list Job) (x y : nat) : bool :=
  bool_decide (x = y) ||
  match h !! x, h !! y with
  | Some a, Some b => bool_decide (a = b)
  | _, _ => false
  end.

(** [x in l] *)
Definition py_in (h : list Job) (l : list nat) (x : nat) : bool :=
  existsb (fun y => py_eq h y x) l.

(** [l.index(x)]; [None] is [ValueError]. *)
Fixpoint py_index (h : list Job) (l : list nat) (x : nat) : option nat :=
  match l with
  | [] => None
  | y :: l' => if py_eq h y x then Some 0 else S <$> py_index h l' x
  end.

(** [l.remove(x)]: drops the first element equal to [x]; [None] is
    [ValueError]. *)
Fixpoint py_remove (h : list Job) (l : list nat) (x : nat) : option (list nat) :=
  match l with
  | [] => None
  | y :: l' => if py_eq h y x then Some l' else (y ::.) <$> py_remove h l' x
  end.

Definition value_error (msg : string) : PyExc := mkExc ValueError msg.

(** *** The queue's methods *)

(** [jobs()] *)
Definition jobs (q : JobQueue) : list nat := _pending q ++ _running q.

(** One iteration of the loop of [_launch_if_possible], for the job [r]
    popped from the left of [_pending], whose remainder is [rest]: the
    worker is created, the job gets it and becomes [Running] and is appended
    to [_running], [job_updated] is emitted with the index of the job in
    [jobs()], the signals of the worker are connected (to slots that hold
    the job) and the worker is started. *)
Definition launch_one (r : nat) (rest : list nat) (q : JobQueue) : res JobQueue :=
  match heap q !! r with
  | None => Stuck
  | Some jb =>
    let w := length (workers q) in
    let q1 := set_pending rest q in
    let q2 := set_workers (workers q1 ++ [mkWorker (urls jb) (opts jb) r false]) q1 in
    let q3 := set_heap (<[r := with_worker w jb]> (heap q2)) q2 in
    let q4 := set_running (_running q3 ++ [r]) q3 in
    match py_index (heap q4) (jobs q4) r with
    | None => Raise (value_error "is not in list")
    | Some i => Ok (emit (JobUpdated (Z.of_nat i)) q4)
    end
  end.

(** The [while] loop of [_launch_if_possible]; every iteration pops one
    pending job, so [length (_pending q)] iterations are enough (see
    [launch_exit]). *)
Fixpoint launch_loop (fuel : nat) (q : JobQueue) : res JobQueue :=
  match fuel with
  | O => Ok q
  | S fuel' =>
    match _pending q with
    | [] => Ok q
    | r :: rest =>
      if bool_decide (Z.of_nat (length (_running q)) < _max_parallel q)%Z
      then q' ← launch_one r rest q; launch_loop fuel' q'
      else Ok q
    end
  end.

(** [_launch_if_possible()] *)
Definition _launch_if_possible (q : JobQueue) : res JobQueue :=
  launch_loop (length (_pending q)) q.

(** [enqueue(urls, opts, out_dir)] *)
Definition enqueue (u : list string) (o : Opts) (d : string) (q : JobQueue)
  : res JobQueue :=
  let r := length (heap q) in
  let q1 := set_heap (heap q ++ [mkJob u o d Queued None]) q in
  _launch_if_possible (set_pending (_pending q1 ++ [r]) q1).

(** The [if]/[elif] of [cancel] for the addressed job [r], whose fields
    are [jb]; the [ValueError] of [deque.remove] is swallowed. *)
Definition cancel_job (r : nat) (jb : Job) (q : JobQueue) : JobQueue :=
  match state jb, worker jb with
  | Running, Some w => set_state r Cancelled (terminate w q)
  | Queued, _ =>
    let p := match py_remove (heap q) (_pending q) r with
             | Some p' => p'
             | None => _pending q
             end in
    set_state r Cancelled (set_pending p q)
  | _, _ => q
  end.

(** [cancel(idx)] *)
Definition cancel (idx : Z) (q : JobQueue) : res JobQueue :=
  let js := jobs q in
  if bool_decide (idx < 0 ∨ idx >= Z.of_nat (length js))%Z then Ok q
  else
    match js !! Z.to_nat idx with
    | None => Stuck
    | Some r =>
      match heap q !! r with
      | None => Stuck
      | Some jb => Ok (emit (JobUpdated idx) (cancel_job r jb q))
      end
    end.

(** [all_jobs = self.jobs()]
    [if job in all_jobs: self.job_updated.emit(all_jobs.index(job))] *)
Definition emit_if_tracked (r : nat) (q : JobQueue) : res JobQueue :=
  let all_jobs := jobs q in
  if py_in (heap q) all_jobs r then
    match py_index (heap q) all_jobs r with
    | None => Raise (value_error "is not in list")
    | Some i => Ok (emit (JobUpdated (Z.of_nat i)) q)
    end
  else Ok q.

(** [_handle_status(job, txt)] *)
Definition _handle_status (r : nat) (txt : string) (q : JobQueue) : res JobQueue :=
  emit_if_tracked r
    (if String.prefix "Error" txt
     then emit (Message txt) (set_state r Error q)
     else q).

(** [if job.state not in ("Error", "Cancelled"): job.state = "Done"] *)
Definition mark_done (r : nat) (jb : Job) (q : JobQueue) : JobQueue :=
  match state jb with
  | Error | Cancelled => q
  | _ => set_state r Done q
  end.

(** [if job in self._running: self._running.remove(job)] *)
Definition remove_running (r : nat) (q : JobQueue) : res JobQueue :=
  if py_in (heap q) (_running q) r then
    match py_remove (heap q) (_running q) r with
    | None => Raise (value_error "list.remove(x): x not in list")
    | Some l => Ok (set_running l q)
    end
  else Ok q.

(** The last four lines of [_on_finished]. *)
Definition drain_or_launch (q : JobQueue) : res JobQueue :=
  match _pending q, _running q with
  | [], [] => Ok (emit QueueEmpty q)
  | _, _ => _launch_if_possible q
  end.

(** [_on_finished(job)] *)
Definition _on_finished (r : nat) (q : JobQueue) : res JobQueue :=
  match heap q !! r with
  | None => Stuck
  | Some jb =>
    q2 ← emit_if_tracked r (mark_done r jb q);
    q3 ← remove_running r q2;
    drain_or_launch q3
  end.

(** *** Runs of the queue

    The queue is driven from the GUI thread by calls of [enqueue] and
    [cancel], by the slots connected to the three signals of the workers it
    has started ([status_signal], [finished] and [log_signal], which goes
    straight to [message.emit]), and by the "Parallel" combo box of
    [gui.py], which assigns [_max_parallel] directly. *)
Inductive Op :=
  | Enqueue (u : list string) (o : Opts) (d : string)
  | Cancel (idx : Z)
  | WorkerStatus (w : nat) (txt : string)
  | WorkerFinished (w : nat)
  | SetMaxParallel (n : Z)
  | WorkerLog (w : nat) (msg : string).

(** An event of a worker is possible once the queue has created and started
    that worker; the combo box offers positive values only. *)
Definition enabled (op : Op) (q : JobQueue) : Prop :=
  match op with
  | WorkerStatus w _ | WorkerFinished w | WorkerLog w _ =>
    is_Some (workers q !! w)
  | SetMaxParallel n => (0 < n)%Z
  | _ => True
  end.

(** An operation that is not enabled does not happen ([Stuck]). *)
Definition run_op (op : Op) (q : JobQueue) : res JobQueue :=
  match op with
  | Enqueue u o d => enqueue u o d q
  | Cancel idx => cancel idx q
  | WorkerStatus w txt =>
    match workers q !! w with
    | Some wk => _handle_status (w_job wk) txt q
    | None => Stuck
    end
  | WorkerFinished w =>
    match workers q !! w with
    | Some wk => _on_finished (w_job wk) q
    | None => Stuck
    end
  | SetMaxParallel n =>
    if bool_decide (0 < n)%Z then Ok (set_max_parallel n q) else Stuck
  | WorkerLog w msg =>
    match workers q !! w with
    | Some _ => Ok (emit (Message msg) q)
    | None => Stuck
    end
  end.

Fixpoint run_ops (ops : list Op) (q : JobQueue) : res JobQueue :=
  match ops with
  | [] => Ok q
  | op :: ops' => q' ← run_op op q; run_ops ops' q'
  end.

(** The states a queue created with [JobQueue(max_par)] can be in, when
    only the operations in [allowed] occur. *)
Inductive reachable_by (allowed : Op → bool) (max_par : Z) : JobQueue → Prop :=
  | reach_init : reachable_by allowed max_par (init max_par)
  | reach_step q op q' :
      reachable_by allowed max_par q →
      allowed op = true →
      run_op op q = Ok q' →
      reachable_by allowed max_par q'.

Definition any_op (op : Op) : bool := true.

(** [_max_parallel] is never reassigned. *)
Definition fixed_max (op : Op) : bool :=
  match op with SetMaxParallel _ => false | _ => true end.

(** Nothing is cancelled. *)
Definition no_cancel (op : Op) : bool :=
  match op with Cancel _ => false | _ => true end.

(** *** Observations *)

(** The jobs in the order their workers were started. *)
Definition launched (q : JobQueue) : list nat := w_job <$> workers q.

(** The exit condition of the loop of [_launch_if_possible]: no pending job
    is left while the running list is below [_max_parallel]. *)
Definition saturated (q : JobQueue) : Prop :=
  _pending q = [] ∨ (_max_parallel q ≤ Z.of_nat (length (_running q)))%Z.

(** [len(self._running) <= self._max_parallel] *)
Definition bounded (q : JobQueue) : Prop :=
  (Z.of_nat (length (_running q)) ≤ _max_parallel q)%Z.

Definition terminal (s : JobState) : bool :=
  match s with
  | Done | Error | Cancelled => true
  | Queued | Running => false
  end.

Definition state_of (q : JobQueue) (r : nat) : option JobState :=
  state <$> heap q !! r.

Definition count_queue_empty (q : JobQueue) : nat :=
  length (filter (fun s => s = QueueEmpty) (signals q)).

(** A job is [Queued] exactly when it waits in [_pending]. *)
Definition queued_pending (q : JobQueue) : Prop :=
  ∀ r jb, heap q !! r = Some jb → (state jb = Queued ↔ r ∈ _pending q).

(** The state [_on_finished] leaves a job in. *)
Definition finished_state (s : JobState) : JobState :=
  match s with
  | Error => Error
  | Cancelled => Cancelled
  | _ => Done
  end.

(** The invariant of the object graph. *)
Record wf (q : JobQueue) : Prop := mkWf {
  wf_pending : ∀ r, r ∈ _pending q →
    ∃ jb, heap q !! r = Some jb ∧ worker jb = None;
  wf_running : ∀ r, r ∈ _running q →
    ∃ jb, heap q !! r = Some jb ∧ is_Some (worker jb);
  wf_worker_of_job : ∀ r jb w, heap q !! r = Some jb → worker jb = Some w →
    ∃ wk, workers q !! w = Some wk ∧ w_job wk = r;
  wf_job_of_worker : ∀ w wk, workers q !! w = Some wk →
    ∃ jb, heap q !! w_job wk = Some jb ∧ worker jb = Some w;
  wf_running_nodup : NoDup (_running q);
  wf_state_worker : ∀ r jb, heap q !! r = Some jb →
    (state jb = Running → is_Some (worker jb)) ∧
    (state jb = Queued → worker jb = None);
  wf_fifo : StronglySorted lt (launched q ++ _pending q)
}.

End QueueModel.

(** [Path(s).name] for a file name without a directory part, as in the
    examples. *)
Definition plain_name (s : string) : string := s.

(** *** Concrete runs

    The examples use a small option dictionary and the GUI's way of
    enqueuing: the same options and output directory for every job. *)
Definition demo_opts : gmap string string := {[ "format" := "best" ]}.

Definition enq (url : string) : @Op (gmap string string) :=
  Enqueue [url] demo_opts "/downloads".

(** The queue after [ops], starting from [JobQueue(max_par)]. *)
Definition state_after (max_par : Z) (ops : list (@Op (gmap string string)))
  : @JobQueue (gmap string string) :=
  match run_ops ops (init max_par) with
  | Ok q => q
  | _ => init max_par
  end.

Definition is_ok {A} (r : res A) : bool :=
  match r with Ok _ => true | _ => false end.

(** ** Properties of the job queue *)

Section QueueProofs.

Context {Opts : Type} `{!EqDecision Opts}.

Implicit Types (q : @JobQueue Opts) (jb : @Job Opts) (h : list (@Job Opts)).
Implicit Types (op : @Op Opts) (wk : @Worker Opts).
Implicit Types (l p : list nat) (r x y w : nat).

(** *** Equality, membership, index and removal *)

Lemma py_eq_refl h x : py_eq h x x = true.
Proof. unfold py_eq. by rewrite bool_decide_eq_true_2. Qed.

Lemma py_eq_worker h x y jx jy w :
  py_eq h x y = true → h !! x = Some jx → h !! y = Some jy →
  worker jx = Some w → worker jy = Some w.
Proof.
  unfold py_eq. intros Heq Hx Hy Hw.
  apply orb_true_iff in Heq as [Heq|Heq].
  - apply bool_decide_eq_true in Heq. subst y. congruence.
  - rewrite Hx, Hy in Heq. apply bool_decide_eq_true in Heq. congruence.
Qed.

Lemma py_in_spec h l x :
  py_in h l x = true ↔ ∃ y, y ∈ l ∧ py_eq h y x = true.
Proof.
  unfold py_in. rewrite existsb_exists.
  split; intros (y & Hy & Heq); exists y; split; auto;
    by apply list_elem_of_In.
Qed.

Lemma py_in_elem h l x : x ∈ l → py_in h l x = true.
Proof. intros Hx. apply py_in_spec. exists x. auto using py_eq_refl. Qed.

Lemma py_in_false h l x : py_in h l x = false → x ∉ l.
Proof.
  intros Hf Hx. apply (py_in_elem h) in Hx. congruence.
Qed.

Lemma py_index_in h l x : py_in h l x = true → is_Some (py_index h l x).
Proof.
  induction l as [|y l IH]; simpl; [done|].
  destruct (py_eq h y x); simpl; [eauto|].
  intros Hin. destruct (IH Hin) as [i ->]. simpl. eauto.
Qed.

Lemma py_remove_in h l x : py_in h l x = true → is_Some (py_remove h l x).
Proof.
  induction l as [|y l IH]; simpl; [done|].
  destruct (py_eq h y x); simpl; [eauto|].
  intros Hin. destruct (IH Hin) as [l' ->]. simpl. eauto.
Qed.

(** [remove] drops the first element that is equal to [x]. *)
Lemma py_remove_spec h l x l' :
  py_remove h l x = Some l' →
  ∃ l1 y l2, l = l1 ++ y :: l2 ∧ l' = l1 ++ l2 ∧ py_eq h y x = true ∧
             ∀ z, z ∈ l1 → py_eq h z x = false.
Proof.
  revert l'. induction l as [|y l IH]; simpl; intros l' Hrm; [done|].
  destruct (py_eq h y x) eqn:Heq.
  - injection Hrm as <-. exists [], y, l. repeat split; auto.
    intros z Hz. by apply elem_of_nil in Hz.
  - destruct (py_remove h l x) as [l0|] eqn:Hl; simpl in Hrm; [|done].
    injection Hrm as <-.
    destruct (IH _ eq_refl) as (l1 & y' & l2 & -> & -> & Hy' & Hl1).
    exists (y :: l1), y', l2. repeat split; auto.
    intros z [->|Hz]%elem_of_cons; auto.
Qed.

Lemma py_remove_sublist h l x l' :
  py_remove h l x = Some l' → l' `sublist_of` l.
Proof.
  intros (l1 & y & l2 & -> & -> & _)%py_remove_spec.
  apply sublist_app; [done|]. by apply sublist_cons.
Qed.

Lemma sublist_elem_of_l l l' x : l' `sublist_of` l → x ∈ l' → x ∈ l.
Proof. intros Hs Hx. by eapply elem_of_sublist. Qed.

Lemma StronglySorted_lt_sublist l l' :
  l' `sublist_of` l → StronglySorted lt l → StronglySorted lt l'.
Proof.
  induction 1 as [|z l1 l2 Hs IH|z l1 l2 Hs IH]; intros Hsorted; [done|..].
  - apply StronglySorted_cons in Hsorted as [Hall Hsorted].
    apply StronglySorted_cons. split; [|auto].
    apply Forall_forall. intros y Hy.
    rewrite Forall_forall in Hall. eauto using sublist_elem_of_l.
  - apply StronglySorted_cons in Hsorted as [_ Hsorted]. auto.
Qed.

(** *** One admission *)

Lemma launch_one_inv r rest q q' :
  launch_one r rest q = Ok q' →
  ∃ jb i,
    heap q !! r = Some jb ∧
    _max_parallel q' = _max_parallel q ∧
    _pending q' = rest ∧
    _running q' = _running q ++ [r] ∧
    heap q' = <[r := with_worker (length (workers q)) jb]> (heap q) ∧
    workers q' = workers q ++ [mkWorker (urls jb) (opts jb) r false] ∧
    signals q' = signals q ++ [JobUpdated i].
Proof.
  unfold launch_one. destruct (heap q !! r) as [jb|] eqn:Hjb; [|done].
  cbn. destruct (py_index _ _ r) as [i|]; [|done].
  intros [= <-]. exists jb, (Z.of_nat i). by cbn.
Qed.

Lemma launch_one_total r rest q jb :
  heap q !! r = Some jb → ∃ q', launch_one r rest q = Ok q'.
Proof.
  intros Hjb. unfold launch_one. rewrite Hjb. cbn.
  destruct (py_index_in
    (<[r:=with_worker (length (workers q)) jb]> (heap q))
    (rest ++ _running q ++ [r]) r) as [i Hi].
  { apply py_in_elem. rewrite !elem_of_app, list_elem_of_singleton. auto. }
  unfold jobs. cbn. rewrite Hi. eauto.
Qed.

(** Whatever one admission preserves, under the guard of the loop, the
    whole pass preserves. *)
Lemma launch_loop_preserves (P : JobQueue → Prop) :
  (∀ q r rest q',
      P q → _pending q = r :: rest →
      (Z.of_nat (length (_running q)) < _max_parallel q)%Z →
      launch_one r rest q = Ok q' → P q') →
  ∀ n q q', P q → launch_loop n q = Ok q' → P q'.
Proof.
  intros Hstep. induction n as [|n IH]; simpl; intros q q' HP Hrun.
  - by injection Hrun as <-.
  - destruct (_pending q) as [|r rest] eqn:Hp; [by injection Hrun as <-|].
    case_bool_decide as Hlt; [|by injection Hrun as <-].
    destruct (launch_one r rest q) as [q1| |] eqn:H1; simpl in Hrun; try done.
    eapply IH; [|exact Hrun]. eauto.
Qed.

Lemma launch_if_possible_preserves (P : JobQueue → Prop) :
  (∀ q r rest q',
      P q → _pending q = r :: rest →
      (Z.of_nat (length (_running q)) < _max_parallel q)%Z →
      launch_one r rest q = Ok q' → P q') →
  ∀ q q', P q → _launch_if_possible q = Ok q' → P q'.
Proof. intros Hstep q q'. apply launch_loop_preserves, Hstep. Qed.

(** The loop ends because its condition is false, not for lack of fuel. *)
Lemma launch_loop_exit n q q' :
  length (_pending q) ≤ n → launch_loop n q = Ok q' → saturated q'.
Proof.
  revert q. induction n as [|n IH]; simpl; intros q Hlen Hrun.
  - injection Hrun as <-. left. destruct (_pending q); [done|simpl in Hlen; lia].
  - destruct (_pending q) as [|r rest] eqn:Hp.
    { injection Hrun as <-. by left. }
    case_bool_decide as Hlt.
    + destruct (launch_one r rest q) as [q1| |] eqn:H1; simpl in Hrun; try done.
      apply IH in Hrun; [done|].
      apply launch_one_inv in H1 as (jb & i & _ & _ & -> & _).
      simpl in Hlen. lia.
    + injection Hrun as <-. right. lia.
Qed.

Lemma launch_exit q q' : _launch_if_possible q = Ok q' → saturated q'.
Proof. by apply launch_loop_exit. Qed.

(** A pass on a saturated queue changes nothing. *)
Lemma launch_saturated q : saturated q → _launch_if_possible q = Ok q.
Proof.
  unfold _launch_if_possible. intros [Hp|Hfull].
  - by rewrite Hp.
  - destruct (_pending q) as [|r rest] eqn:Hp; simpl; [done|].
    rewrite Hp. by rewrite bool_decide_eq_false_2 by lia.
Qed.

(** *** The invariant of the object graph *)

Lemma wf_init max_par : wf (@init Opts max_par).
Proof.
  constructor; cbn; try done.
  - intros r Hr. by apply elem_of_nil in Hr.
  - intros r Hr. by apply elem_of_nil in Hr.
  - constructor.
  - constructor.
Qed.

Lemma wf_emit s q : wf q → wf (emit s q).
Proof. intros []. by constructor. Qed.

Lemma wf_set_max_parallel n q : wf q → wf (set_max_parallel n q).
Proof. intros []. by constructor. Qed.

(** Replacing the store by one where every job keeps its worker. *)
Lemma wf_set_heap h q :
  wf q →
  (∀ x, worker <$> h !! x = worker <$> heap q !! x) →
  (∀ x jb, h !! x = Some jb →
     (state jb = Running → is_Some (worker jb)) ∧
     (state jb = Queued → worker jb = None)) →
  wf (set_heap h q).
Proof.
  intros [Hp Hr Hwj Hjw Hnd Hsw Hfifo] Hsame Hst.
  assert (Hto : ∀ x jb, heap q !! x = Some jb →
            ∃ jb', h !! x = Some jb' ∧ worker jb' = worker jb).
  { intros x jb Hx. specialize (Hsame x). rewrite Hx in Hsame.
    destruct (h !! x) as [jb'|]; simpl in Hsame; [|done].
    exists jb'. split; [done|congruence]. }
  assert (Hfrom : ∀ x jb', h !! x = Some jb' →
            ∃ jb, heap q !! x = Some jb ∧ worker jb' = worker jb).
  { intros x jb' Hx. specialize (Hsame x). rewrite Hx in Hsame.
    destruct (heap q !! x) as [jb|]; simpl in Hsame; [|done].
    exists jb. split; [done|congruence]. }
  constructor; cbn; try done.
  - intros r (jb & Hjb & Hw)%Hp.
    destruct (Hto _ _ Hjb) as (jb' & ? & ?). exists jb'. split; congruence.
  - intros r (jb & Hjb & Hw)%Hr.
    destruct (Hto _ _ Hjb) as (jb' & ? & Heq). exists jb'.
    split; [done|]. by rewrite Heq.
  - intros r jb' w Hjb' Hw.
    destruct (Hfrom _ _ Hjb') as (jb & Hjb & Heq).
    eapply Hwj; [exact Hjb|congruence].
  - intros w wk (jb & Hjb & Hw)%Hjw.
    destruct (Hto _ _ Hjb) as (jb' & ? & ?). exists jb'. split; congruence.
Qed.

Lemma lookup_set_state r s h x :
  alter (with_state s) r h !! x =
  if decide (r = x) then with_state s <$> h !! x else h !! x.
Proof. rewrite list_lookup_alter. by case_decide; subst. Qed.

(** Moving a job to [Done], [Error] or [Cancelled]. *)
Lemma wf_set_state r s q : terminal s = true → wf q → wf (set_state r s q).
Proof.
  intros Hs Hwf. apply wf_set_heap; [done|..].
  - intros x. rewrite lookup_set_state. case_decide; [|done].
    by destruct (heap q !! x).
  - intros x jb. rewrite lookup_set_state. case_decide.
    + destruct (heap q !! x) as [jb0|]; simpl; [|done].
      intros [= <-]. simpl. by destruct s.
    + apply (wf_state_worker _ Hwf).
Qed.

Lemma wf_set_pending p q :
  p `sublist_of` _pending q → wf q → wf (set_pending p q).
Proof.
  intros Hsub [Hp Hr Hwj Hjw Hnd Hsw Hfifo].
  constructor; cbn; try done.
  - intros r Hin. apply Hp. eauto using sublist_elem_of_l.
  - unfold launched in *. cbn.
    eapply StronglySorted_lt_sublist; [|exact Hfifo].
    by apply sublist_app.
Qed.

Lemma wf_set_running l q :
  l `sublist_of` _running q → wf q → wf (set_running l q).
Proof.
  intros Hsub [Hp Hr Hwj Hjw Hnd Hsw Hfifo].
  constructor; cbn; try done.
  - intros r Hin. apply Hr. eauto using sublist_elem_of_l.
  - eauto using sublist_NoDup.
Qed.

Lemma lookup_terminate w (ws : list (@Worker Opts)) x :
  w_job <$> alter terminated w ws !! x = w_job <$> ws !! x.
Proof.
  rewrite list_lookup_alter. case_decide; subst; [|done].
  by destruct (ws !! x).
Qed.

Lemma wf_terminate w q : wf q → wf (terminate w q).
Proof.
  intros [Hp Hr Hwj Hjw Hnd Hsw Hfifo].
  constructor; cbn; try done.
  - intros r jb v Hjb Hv. destruct (Hwj _ _ _ Hjb Hv) as (wk & Hwk & Hj).
    pose proof (lookup_terminate w (workers q) v) as Hl. rewrite Hwk in Hl.
    destruct (alter terminated w (workers q) !! v) as [wk'|]; [|done].
    exists wk'. split; [done|]. simpl in Hl. congruence.
  - intros v wk' Hwk'.
    pose proof (lookup_terminate w (workers q) v) as Hl. rewrite Hwk' in Hl.
    destruct (workers q !! v) as [wk|] eqn:Hwk; [|done].
    simpl in Hl. injection Hl as Hl. rewrite Hl. eauto.
  - unfold launched in *. cbn.
    replace (w_job <$> alter terminated w (workers q)) with (w_job <$> workers q);
      [done|].
    apply list_eq. intros i. rewrite !list_lookup_fmap.
    symmetry. apply lookup_terminate.
Qed.

Lemma wf_lookup_lt q r : wf q → r ∈ launched q ++ _pending q → r < length (heap q).
Proof.
  intros Hwf [Hr|Hr]%elem_of_app.
  - unfold launched in Hr. apply list_elem_of_fmap in Hr as (wk & -> & Hwk).
    apply list_elem_of_lookup in Hwk as [w Hw].
    destruct (wf_job_of_worker _ Hwf _ _ Hw) as (jb & Hjb & _).
    by apply lookup_lt_Some in Hjb.
  - destruct (wf_pending _ Hwf _ Hr) as (jb & Hjb & _).
    by apply lookup_lt_Some in Hjb.
Qed.

Lemma wf_launch_one r rest q q' :
  wf q → _pending q = r :: rest → launch_one r rest q = Ok q' → wf q'.
Proof.
  intros Hwf Hpq H1.
  apply launch_one_inv in H1
    as (jb & i & Hjb & _ & Hp' & Hr' & Hh' & Hw' & _).
  pose proof Hwf as [Hp Hr Hwj Hjw Hnd Hsw Hfifo].
  assert (Hrlt : r < length (heap q)) by by apply lookup_lt_Some in Hjb.
  assert (Hwr : worker jb = None).
  { destruct (Hp r) as (jb0 & Hjb0 & ?); [rewrite Hpq; left|congruence]. }
  assert (Hrest : ∀ x, x ∈ rest → x ≠ r).
  { intros x Hx ->. rewrite Hpq in Hfifo.
    apply StronglySorted_app_1_r, StronglySorted_cons in Hfifo as [Hall _].
    rewrite Forall_forall in Hall. specialize (Hall _ Hx). lia. }
  assert (Hrun : r ∉ _running q).
  { intros (jb0 & Hjb0 & [w Hw])%Hr. congruence. }
  constructor; rewrite ?Hp', ?Hr', ?Hh', ?Hw'.
  - intros x Hx. rewrite list_lookup_insert_ne by (symmetry; auto).
    apply Hp. rewrite Hpq. by right.
  - intros x [Hx| ->%list_elem_of_singleton]%elem_of_app.
    + rewrite list_lookup_insert_ne by (intros ->; done). by apply Hr.
    + rewrite list_lookup_insert_eq by done. eexists; split; [done|]. simpl. eauto.
  - intros x jbx w. destruct (decide (r = x)) as [->|Hne].
    + rewrite list_lookup_insert_eq by done. intros [= <-] [= <-].
      eexists. split; [apply lookup_snoc_Some; right; done|done].
    + rewrite list_lookup_insert_ne by done. intros Hx Hw.
      destruct (Hwj _ _ _ Hx Hw) as (wk & Hwk & ?). exists wk. split; [|done].
      apply lookup_app_Some. by left.
  - intros w wk [[Hlt Hwk]|[Hw Hwk]]%lookup_snoc_Some.
    + destruct (Hjw _ _ Hwk) as (jbx & Hx & Hw). exists jbx. split; [|done].
      rewrite list_lookup_insert_ne; [done|]. intros Heq. rewrite <- Heq in Hx.
      congruence.
    + subst w wk. simpl. rewrite list_lookup_insert_eq by done. eauto.
  - apply NoDup_app. split_and!; [done| |apply NoDup_singleton].
    intros x Hx ->%list_elem_of_singleton. done.
  - intros x jbx. destruct (decide (r = x)) as [->|Hne].
    + rewrite list_lookup_insert_eq by done. intros [= <-]. simpl. split; [eauto|done].
    + rewrite list_lookup_insert_ne by done. apply Hsw.
  - unfold launched in *. rewrite Hw', fmap_app. simpl.
    rewrite Hpq in Hfifo. by rewrite <- app_assoc.
Qed.

Lemma wf_launch_if_possible q q' :
  wf q → _launch_if_possible q = Ok q' → wf q'.
Proof.
  apply (launch_if_possible_preserves wf).
  intros q0 r rest q1 Hwf Hp _. by apply wf_launch_one.
Qed.

Lemma launch_loop_total n q : wf q → ∃ q', launch_loop n q = Ok q'.
Proof.
  revert q. induction n as [|n IH]; simpl; intros q Hwf; [eauto|].
  destruct (_pending q) as [|r rest] eqn:Hp; [eauto|].
  case_bool_decide; [|eauto].
  destruct (wf_pending _ Hwf r) as (jb & Hjb & _); [rewrite Hp; left|].
  destruct (launch_one_total r rest q jb Hjb) as [q1 H1]. rewrite H1. simpl.
  apply IH. eauto using wf_launch_one.
Qed.

Lemma launch_if_possible_total q : wf q → ∃ q', _launch_if_possible q = Ok q'.
Proof. apply launch_loop_total. Qed.

(** The queue just before the admission pass of [enqueue]. *)
Lemma wf_enqueue_pre u o d q :
  wf q →
  wf (set_pending (_pending q ++ [length (heap q)])
        (set_heap (heap q ++ [mkJob u o d Queued None]) q)).
Proof.
  intros Hwf. pose proof Hwf as [Hp Hr Hwj Hjw Hnd Hsw Hfifo].
  constructor; cbn; try done.
  - intros x [Hx| ->%list_elem_of_singleton]%elem_of_app.
    + destruct (Hp _ Hx) as (jb & Hjb & ?). exists jb. split; [|done].
      apply lookup_app_Some. by left.
    + eexists. split; [apply lookup_snoc_Some; right; done|done].
  - intros x Hx. destruct (Hr _ Hx) as (jb & Hjb & ?). exists jb. split; [|done].
    apply lookup_app_Some. by left.
  - intros x jb w [[_ Hx]|[-> <-]]%lookup_snoc_Some; [|done]. eauto.
  - intros w wk Hwk. destruct (Hjw _ _ Hwk) as (jb & Hjb & ?).
    exists jb. split; [|done]. apply lookup_app_Some. by left.
  - intros x jb [[_ Hx]|[-> <-]]%lookup_snoc_Some; [eauto|done].
  - rewrite app_assoc. apply StronglySorted_app. split_and!; [|done|].
    + intros x1 x2 Hx1 ->%list_elem_of_singleton. by apply wf_lookup_lt.
    + repeat constructor.
Qed.

Lemma enqueue_unfold u o d q :
  enqueue u o d q =
  _launch_if_possible
    (set_pending (_pending q ++ [length (heap q)])
       (set_heap (heap q ++ [mkJob u o d Queued None]) q)).
Proof. reflexivity. Qed.

Lemma wf_enqueue u o d q q' : wf q → enqueue u o d q = Ok q' → wf q'.
Proof.
  intros Hwf Hrun. rewrite enqueue_unfold in Hrun.
  eapply wf_launch_if_possible; [|exact Hrun]. by apply wf_enqueue_pre.
Qed.

Lemma enqueue_total u o d q : wf q → ∃ q', enqueue u o d q = Ok q'.
Proof.
  intros Hwf. unfold enqueue. cbn.
  apply launch_loop_total. by apply wf_enqueue_pre.
Qed.

(** *** The steps of [cancel], [_handle_status] and [_on_finished] *)

Lemma emit_if_tracked_inv r q q' :
  emit_if_tracked r q = Ok q' → q' = q ∨ ∃ i, q' = emit (JobUpdated i) q.
Proof.
  unfold emit_if_tracked. destruct (py_in _ _ r); [|intros [= <-]; by left].
  destruct (py_index _ _ r) as [i|]; [|done]. intros [= <-]. right. eauto.
Qed.

Lemma emit_if_tracked_total r q : ∃ q', emit_if_tracked r q = Ok q'.
Proof.
  unfold emit_if_tracked. destruct (py_in _ _ r) eqn:Hin; [|eauto].
  destruct (py_index_in _ _ _ Hin) as [i ->]. eauto.
Qed.

Lemma wf_emit_if_tracked r q q' : wf q → emit_if_tracked r q = Ok q' → wf q'.
Proof.
  intros Hwf [->|[i ->]]%emit_if_tracked_inv; [done|by apply wf_emit].
Qed.

Lemma remove_running_inv r q q' :
  remove_running r q = Ok q' →
  ∃ l, q' = set_running l q ∧ (l `sublist_of` _running q) ∧
       (py_in (heap q) (_running q) r = false ∧ l = _running q ∨
        py_remove (heap q) (_running q) r = Some l).
Proof.
  unfold remove_running. destruct (py_in _ _ r) eqn:Hin.
  - destruct (py_remove _ _ r) as [l|] eqn:Hrm; [|done]. intros [= <-].
    exists l. eauto using py_remove_sublist.
  - intros [= <-]. exists (_running q). split_and!; [by destruct q|done|by left].
Qed.

Lemma remove_running_total r q : ∃ q', remove_running r q = Ok q'.
Proof.
  unfold remove_running. destruct (py_in _ _ r) eqn:Hin; [|eauto].
  destruct (py_remove_in _ _ _ Hin) as [l ->]. eauto.
Qed.

Lemma wf_remove_running r q q' : wf q → remove_running r q = Ok q' → wf q'.
Proof.
  intros Hwf (l & -> & Hsub & _)%remove_running_inv. by apply wf_set_running.
Qed.

Lemma wf_drain_or_launch q q' : wf q → drain_or_launch q = Ok q' → wf q'.
Proof.
  unfold drain_or_launch. intros Hwf.
  destruct (_pending q), (_running q); try apply (wf_launch_if_possible _ _ Hwf).
  intros [= <-]. by apply wf_emit.
Qed.

Lemma drain_or_launch_total q : wf q → ∃ q', drain_or_launch q = Ok q'.
Proof.
  unfold drain_or_launch. intros Hwf.
  destruct (_pending q), (_running q); eauto using launch_if_possible_total.
Qed.

Lemma wf_mark_done r jb q : wf q → wf (mark_done r jb q).
Proof. unfold mark_done. destruct (state jb); auto using wf_set_state. Qed.

(** What [cancel] leaves alone. *)
Lemma cancel_job_frame r jb q :
  _max_parallel (cancel_job r jb q) = _max_parallel q ∧
  _running (cancel_job r jb q) = _running q ∧
  (_pending (cancel_job r jb q) `sublist_of` _pending q) ∧
  signals (cancel_job r jb q) = signals q.
Proof.
  unfold cancel_job. destruct (state jb), (worker jb); cbn; split_and!; try done;
    destruct (py_remove _ _ r) eqn:Hrm; eauto using py_remove_sublist.
Qed.

Lemma wf_cancel_job r jb q : wf q → wf (cancel_job r jb q).
Proof.
  intros Hwf. unfold cancel_job.
  destruct (state jb), (worker jb); try done;
    try (apply wf_set_state; [done|]); try by apply wf_terminate.
  all: apply wf_set_pending; [|done];
    destruct (py_remove _ _ r) eqn:Hrm; eauto using py_remove_sublist.
Qed.

Lemma cancel_inv idx q q' :
  cancel idx q = Ok q' →
  ((idx < 0 ∨ idx >= Z.of_nat (length (jobs q)))%Z ∧ q' = q) ∨
  ∃ r jb, (0 ≤ idx < Z.of_nat (length (jobs q)))%Z ∧
          jobs q !! Z.to_nat idx = Some r ∧ heap q !! r = Some jb ∧
          q' = emit (JobUpdated idx) (cancel_job r jb q).
Proof.
  unfold cancel. case_bool_decide as Hrange; [intros [= <-]; by left|].
  destruct (jobs q !! Z.to_nat idx) as [r|] eqn:Hr; [|done].
  destruct (heap q !! r) as [jb|] eqn:Hjb; [|done].
  intros [= <-]. right. exists r, jb. split_and!; try done; lia.
Qed.

Lemma wf_jobs_lookup q r :
  wf q → r ∈ jobs q → ∃ jb, heap q !! r = Some jb.
Proof.
  intros Hwf [Hr|Hr]%elem_of_app.
  - destruct (wf_pending _ Hwf _ Hr) as (jb & ? & _). eauto.
  - destruct (wf_running _ Hwf _ Hr) as (jb & ? & _). eauto.
Qed.

Lemma cancel_total idx q : wf q → ∃ q', cancel idx q = Ok q'.
Proof.
  intros Hwf. unfold cancel. case_bool_decide as Hrange; [eauto|].
  destruct (lookup_lt_is_Some_2 (jobs q) (Z.to_nat idx)) as [r Hr]; [lia|].
  rewrite Hr. destruct (wf_jobs_lookup q r Hwf) as [jb ->]; [|eauto].
  apply list_elem_of_lookup. eauto.
Qed.

Lemma wf_cancel idx q q' : wf q → cancel idx q = Ok q' → wf q'.
Proof.
  intros Hwf [[_ ->]|(r & jb & _ & _ & _ & ->)]%cancel_inv; [done|].
  by apply wf_emit, wf_cancel_job.
Qed.

Lemma wf_handle_status r txt q q' : wf q → _handle_status r txt q = Ok q' → wf q'.
Proof.
  intros Hwf. unfold _handle_status. apply wf_emit_if_tracked.
  destruct (String.prefix _ _); [|done]. by apply wf_emit, wf_set_state.
Qed.

(** The three steps of a successful [_on_finished]. *)
Lemma on_finished_inv r q q' :
  _on_finished r q = Ok q' →
  ∃ jb q2 q3,
    heap q !! r = Some jb ∧
    emit_if_tracked r (mark_done r jb q) = Ok q2 ∧
    remove_running r q2 = Ok q3 ∧
    drain_or_launch q3 = Ok q'.
Proof.
  unfold _on_finished. destruct (heap q !! r) as [jb|]; [|done].
  destruct (emit_if_tracked _ _) as [q2| |] eqn:H2; simpl; try done.
  destruct (remove_running r q2) as [q3| |] eqn:H3; simpl; try done.
  intros H4. by exists jb, q2, q3.
Qed.

Lemma wf_on_finished r q q' : wf q → _on_finished r q = Ok q' → wf q'.
Proof.
  intros Hwf (jb & q2 & q3 & _ & H2 & H3 & H4)%on_finished_inv.
  eapply wf_drain_or_launch; [|exact H4].
  eapply wf_remove_running; [|exact H3].
  eapply wf_emit_if_tracked; [|exact H2]. by apply wf_mark_done.
Qed.

Lemma on_finished_total r jb q :
  wf q → heap q !! r = Some jb → ∃ q', _on_finished r q = Ok q'.
Proof.
  intros Hwf Hjb. unfold _on_finished. rewrite Hjb.
  destruct (emit_if_tracked_total r (mark_done r jb q)) as [q2 H2].
  rewrite H2. simpl.
  destruct (remove_running_total r q2) as [q3 H3]. rewrite H3. simpl.
  apply drain_or_launch_total.
  eapply wf_remove_running; [|exact H3].
  eapply wf_emit_if_tracked; [|exact H2]. by apply wf_mark_done.
Qed.

(** *** Every run keeps the invariant and raises nothing *)

Lemma wf_run_op op q q' : wf q → run_op op q = Ok q' → wf q'.
Proof.
  intros Hwf. destruct op as [u o d|idx|w txt|w|n|w msg]; simpl.
  - by apply wf_enqueue.
  - by apply wf_cancel.
  - destruct (workers q !! w); [|done]. by apply wf_handle_status.
  - destruct (workers q !! w); [|done]. by apply wf_on_finished.
  - case_bool_decide; [|done]. intros [= <-]. by apply wf_set_max_parallel.
  - destruct (workers q !! w); [|done]. intros [= <-]. by apply wf_emit.
Qed.

Lemma wf_reachable allowed max_par q : reachable_by allowed max_par q → wf q.
Proof.
  induction 1 as [|q op q' _ IH _ Hrun]; [apply wf_init|].
  by eapply wf_run_op.
Qed.

Lemma run_op_total_wf op q : wf q → enabled op q → ∃ q', run_op op q = Ok q'.
Proof.
  intros Hwf Hen. destruct op as [u o d|idx|w txt|w|n|w msg]; simpl in *.
  - by apply enqueue_total.
  - by apply cancel_total.
  - destruct Hen as [wk ->]. apply emit_if_tracked_total.
  - destruct Hen as [wk Hwk]. rewrite Hwk.
    destruct (wf_job_of_worker _ Hwf _ _ Hwk) as (jb & Hjb & _).
    by eapply on_finished_total.
  - rewrite bool_decide_eq_true_2 by done. eauto.
  - destruct Hen as [wk ->]. eauto.
Qed.

(** No operation of a run raises an exception or follows a dangling
    reference. *)
Lemma run_op_total allowed max_par op q :
  reachable_by allowed max_par q → enabled op q → ∃ q', run_op op q = Ok q'.
Proof. intros Hq. apply run_op_total_wf. by eapply wf_reachable. Qed.

Lemma reachable_by_weaken (a1 a2 : @Op Opts → bool) max_par q :
  (∀ op, a1 op = true → a2 op = true) →
  reachable_by a1 max_par q → reachable_by a2 max_par q.
Proof.
  intros Ha. induction 1; [constructor|]. eapply reach_step; eauto.
Qed.

Lemma run_ops_reachable allowed max_par ops q0 q :
  reachable_by allowed max_par q0 →
  forallb allowed ops = true →
  run_ops ops q0 = Ok q →
  reachable_by allowed max_par q.
Proof.
  revert q0. induction ops as [|op ops IH]; simpl; intros q0 Hq0 Hall Hrun.
  - by injection Hrun as <-.
  - apply andb_true_iff in Hall as [Hop Hall].
    destruct (run_op op q0) as [q1| |] eqn:H1; simpl in Hrun; try done.
    eapply IH; [|done|exact Hrun]. eapply reach_step; eauto.
Qed.

(** *** The bound on the running list *)

Lemma launch_bounded q q' : bounded q → _launch_if_possible q = Ok q' → bounded q'.
Proof.
  apply (launch_if_possible_preserves bounded).
  intros q0 r rest q1 _ _ Hlt (jb & i & _ & Hm & _ & Hr & _)%launch_one_inv.
  unfold bounded. rewrite Hm, Hr, length_app. simpl. lia.
Qed.

Lemma launch_max_parallel q q' :
  _launch_if_possible q = Ok q' → _max_parallel q' = _max_parallel q.
Proof.
  apply (launch_if_possible_preserves (fun q1 => _max_parallel q1 = _max_parallel q));
    [|done].
  intros q0 r rest q1 Hq0 _ _ (jb & i & _ & Hm & _)%launch_one_inv. congruence.
Qed.

Lemma emit_if_tracked_frame r q q' :
  emit_if_tracked r q = Ok q' →
  _max_parallel q' = _max_parallel q ∧ _pending q' = _pending q ∧
  _running q' = _running q ∧ heap q' = heap q ∧ workers q' = workers q.
Proof. by intros [->|[i ->]]%emit_if_tracked_inv. Qed.

Lemma handle_status_frame r txt q q' :
  _handle_status r txt q = Ok q' →
  _max_parallel q' = _max_parallel q ∧ _pending q' = _pending q ∧
  _running q' = _running q ∧ workers q' = workers q.
Proof.
  unfold _handle_status.
  intros (-> & -> & -> & _ & ->)%emit_if_tracked_frame.
  by destruct (String.prefix _ _).
Qed.

Lemma mark_done_frame r jb q :
  _max_parallel (mark_done r jb q) = _max_parallel q ∧
  _pending (mark_done r jb q) = _pending q ∧
  _running (mark_done r jb q) = _running q ∧
  workers (mark_done r jb q) = workers q ∧
  signals (mark_done r jb q) = signals q.
Proof. unfold mark_done. by destruct (state jb). Qed.

Lemma bounded_run_op op q q' :
  fixed_max op = true → bounded q → run_op op q = Ok q' → bounded q'.
Proof.
  intros Hfix Hb. destruct op as [u o d|idx|w txt|w|n|w msg]; simpl; try done.
  - rewrite enqueue_unfold. by apply launch_bounded.
  - intros [[_ ->]|(r & jb & _ & _ & _ & ->)]%cancel_inv; [done|].
    destruct (cancel_job_frame r jb q) as (Hm & Hr & _).
    unfold bounded. cbn. by rewrite Hm, Hr.
  - destruct (workers q !! w); [|done].
    intros (Hm & _ & Hr & _)%handle_status_frame.
    unfold bounded. by rewrite Hm, Hr.
  - destruct (workers q !! w) as [wk|]; [|done].
    intros (jb & q2 & q3 & _ & H2 & H3 & H4)%on_finished_inv.
    apply emit_if_tracked_frame in H2 as (Hm2 & _ & Hr2 & _).
    apply remove_running_inv in H3 as (l & -> & Hsub%sublist_length & _).
    destruct (mark_done_frame (w_job wk) jb q) as (Hm1 & _ & Hr1 & _).
    assert (bounded (set_running l q2)) as Hb3.
    { unfold bounded in *. cbn. rewrite Hm2, Hm1. rewrite Hr2, Hr1 in Hsub. lia. }
    revert H4. unfold drain_or_launch.
    destruct (_pending (set_running l q2)), (_running (set_running l q2)) eqn:Hrun;
      try by apply launch_bounded.
    intros [= <-]. unfold bounded in *. cbn in *. by rewrite Hrun in *.
  - destruct (workers q !! w); [|done]. by intros [= <-].
Qed.

Lemma bounded_reachable max_par q :
  (0 ≤ max_par)%Z → reachable_by fixed_max max_par q → bounded q.
Proof.
  intros Hpos. induction 1 as [|q op q' _ IH Hfix Hrun].
  - unfold bounded. simpl. lia.
  - by eapply bounded_run_op.
Qed.

(** *** No launchable job is left pending *)

Lemma saturated_run_op op q q' :
  fixed_max op = true → saturated q → run_op op q = Ok q' → saturated q'.
Proof.
  intros Hfix Hs. destruct op as [u o d|idx|w txt|w|n|w msg]; simpl; try done.
  - apply launch_exit.
  - intros [[_ ->]|(r & jb & _ & _ & _ & ->)]%cancel_inv; [done|].
    destruct (cancel_job_frame r jb q) as (Hm & Hr & Hp & _).
    unfold saturated in *. cbn. rewrite Hm, Hr. destruct Hs as [Hs|Hs]; [|by right].
    left. rewrite Hs in Hp. by apply sublist_nil_r in Hp.
  - destruct (workers q !! w); [|done].
    intros (Hm & Hp & Hr & _)%handle_status_frame.
    unfold saturated. by rewrite Hm, Hp, Hr.
  - destruct (workers q !! w) as [wk|]; [|done].
    intros (jb & q2 & q3 & _ & _ & _ & H4)%on_finished_inv.
    revert H4. unfold drain_or_launch.
    destruct (_pending q3) eqn:Hp3, (_running q3); try apply launch_exit.
    intros [= <-]. by left.
  - destruct (workers q !! w); [|done]. by intros [= <-].
Qed.

Lemma saturated_reachable max_par q :
  reachable_by fixed_max max_par q → saturated q.
Proof.
  induction 1 as [|q op q' _ IH Hfix Hrun]; [by left|].
  by eapply saturated_run_op.
Qed.

(** *** What an admission pass launches *)

Lemma count_queue_empty_emit s q :
  count_queue_empty (emit s q) =
  count_queue_empty q + (if decide (s = QueueEmpty) then 1 else 0).
Proof.
  unfold count_queue_empty. cbn. rewrite filter_app, length_app. f_equal.
  rewrite filter_cons. by case_decide.
Qed.

(** A pass moves a prefix of [_pending], in order, to the end of
    [_running]; it touches no other job and emits no [queue_empty]. *)
Lemma launch_prefix q q' :
  _launch_if_possible q = Ok q' →
  ∃ k, _pending q' = drop k (_pending q) ∧
       _running q' = _running q ++ take k (_pending q) ∧
       launched q' = launched q ++ take k (_pending q) ∧
       (∀ x, x ∉ _pending q → heap q' !! x = heap q !! x) ∧
       count_queue_empty q' = count_queue_empty q.
Proof.
  apply (launch_if_possible_preserves (fun q1 =>
    ∃ k, _pending q1 = drop k (_pending q) ∧
         _running q1 = _running q ++ take k (_pending q) ∧
         launched q1 = launched q ++ take k (_pending q) ∧
         (∀ x, x ∉ _pending q → heap q1 !! x = heap q !! x) ∧
         count_queue_empty q1 = count_queue_empty q)).
  - intros q0 r rest q1 (k & Hp & Hr & Hl & Hh & Hc) Hp0 _
      (jb & i & Hjb & _ & Hp1 & Hr1 & Hh1 & Hw1 & Hs1)%launch_one_inv.
    assert (Hk : _pending q !! k = Some r).
    { pose proof (lookup_drop (_pending q) k 0) as Hd.
      rewrite <- Hp, Hp0, Nat.add_0_r in Hd. by simpl in Hd. }
    exists (S k). rewrite (take_S_r _ _ _ Hk), !app_assoc. split_and!.
    + rewrite Hp1. rewrite Hp0, (drop_S _ _ _ Hk) in Hp. congruence.
    + by rewrite Hr1, Hr.
    + unfold launched in *. by rewrite Hw1, fmap_app, Hl.
    + intros x Hx. rewrite Hh1, list_lookup_insert_ne; [by apply Hh|].
      intros <-. apply Hx. apply list_elem_of_lookup. eauto.
    + rewrite <- Hc. unfold count_queue_empty. rewrite Hs1, filter_app, length_app.
      rewrite filter_cons. case_decide; [done|]. simpl. lia.
  - exists 0. by rewrite drop_0, take_0, !app_nil_r.
Qed.

(** *** First in, first out *)

Lemma queued_pending_set_state r s q :
  wf q → queued_pending q → s ≠ Queued →
  (∀ jb, heap q !! r = Some jb → is_Some (worker jb)) →
  queued_pending (set_state r s q).
Proof.
  intros Hwf Hqp Hs Hr x jb'. cbn. rewrite lookup_set_state. case_decide as Hx.
  - subst x. destruct (heap q !! r) as [jb|] eqn:Hjb; simpl; [|done].
    intros [= <-]. simpl. split; [done|].
    intros (jb0 & Hjb0 & Hnone)%(wf_pending _ Hwf).
    destruct (Hr _ eq_refl) as [w Hw]. congruence.
  - apply Hqp.
Qed.

Lemma queued_pending_launch_one r rest q q' :
  wf q → queued_pending q → _pending q = r :: rest →
  launch_one r rest q = Ok q' → queued_pending q'.
Proof.
  intros Hwf Hqp Hp (jb & i & Hjb & _ & Hp1 & _ & Hh1 & _)%launch_one_inv.
  assert (Hnd : r ∉ rest).
  { pose proof (wf_fifo _ Hwf) as Hs. rewrite Hp in Hs.
    apply StronglySorted_app_1_r, StronglySorted_cons in Hs as [Hall _].
    rewrite Forall_forall in Hall. intros Hin. apply Hall in Hin. lia. }
  intros x jbx. rewrite Hh1, Hp1. destruct (decide (r = x)) as [->|Hne].
  - rewrite list_lookup_insert_eq by by eapply lookup_lt_Some.
    intros [= <-]. simpl. split; done.
  - rewrite list_lookup_insert_ne by done. intros Hx.
    rewrite (Hqp _ _ Hx), Hp, elem_of_cons.
    split; [intros [->|?]; done|by right].
Qed.

Lemma queued_pending_launch q q' :
  wf q → queued_pending q → _launch_if_possible q = Ok q' → queued_pending q'.
Proof.
  intros Hwf Hqp Hrun.
  cut (wf q' ∧ queued_pending q'); [by intros []|].
  revert Hrun. apply (launch_if_possible_preserves (fun q1 => wf q1 ∧ queued_pending q1));
    [|done].
  intros q0 r rest q1 [Hwf0 Hqp0] Hp0 _ H1.
  eauto using wf_launch_one, queued_pending_launch_one.
Qed.

Lemma queued_pending_enqueue u o d q q' :
  wf q → queued_pending q → enqueue u o d q = Ok q' → queued_pending q'.
Proof.
  intros Hwf Hqp. rewrite enqueue_unfold.
  apply queued_pending_launch; [by apply wf_enqueue_pre|].
  intros x jb. cbn. intros [[Hlt Hx]|[-> <-]]%lookup_snoc_Some.
  - rewrite (Hqp _ _ Hx), elem_of_app, list_elem_of_singleton. split; [auto|].
    intros [?| ->]; [done|lia].
  - simpl. rewrite elem_of_app, list_elem_of_singleton. naive_solver.
Qed.

Lemma queued_pending_run_op op q q' :
  no_cancel op = true → wf q → queued_pending q →
  run_op op q = Ok q' → queued_pending q'.
Proof.
  intros Hnc Hwf Hqp. destruct op as [u o d|idx|w txt|w|n|w msg]; simpl; try done.
  - by apply queued_pending_enqueue.
  - destruct (workers q !! w) as [wk|] eqn:Hwk; [|done].
    destruct (wf_job_of_worker _ Hwf _ _ Hwk) as (jb & Hjb & Hw).
    unfold _handle_status. intros (_ & Hp & _ & Hh & _)%emit_if_tracked_frame.
    unfold queued_pending. rewrite Hh, Hp.
    destruct (String.prefix _ _); [|done].
    apply (queued_pending_set_state _ Error); try done.
    intros jb0 ?. assert (jb0 = jb) as -> by congruence. eauto.
  - destruct (workers q !! w) as [wk|] eqn:Hwk; [|done].
    intros (jb & q2 & q3 & Hjb & H2 & H3 & H4)%on_finished_inv.
    destruct (wf_job_of_worker _ Hwf _ _ Hwk) as (jb0 & Hjb0 & Hw).
    assert (jb0 = jb) as -> by congruence. clear Hjb0.
    assert (Hwf1 : wf (mark_done (w_job wk) jb q)) by by apply wf_mark_done.
    assert (Hqp1 : queued_pending (mark_done (w_job wk) jb q)).
    { unfold mark_done. destruct (state jb); try done;
        apply queued_pending_set_state; try done;
        intros jb0 ?; assert (jb0 = jb) as -> by congruence; eauto. }
    assert (Hwf3 : wf q3).
    { eapply wf_remove_running; [|exact H3]. by eapply wf_emit_if_tracked. }
    assert (Hqp3 : queued_pending q3).
    { apply emit_if_tracked_frame in H2 as (_ & Hp2 & _ & Hh2 & _).
      apply remove_running_inv in H3 as (l & -> & _).
      unfold queued_pending. cbn. by rewrite Hh2, Hp2. }
    revert H4. unfold drain_or_launch.
    destruct (_pending q3) eqn:Hp3, (_running q3);
      try (apply queued_pending_launch; done).
    intros [= <-]. exact Hqp3.
  - case_bool_decide; [|done]. by intros [= <-].
  - destruct (workers q !! w); [|done]. by intros [= <-].
Qed.

Lemma queued_pending_reachable max_par q :
  reachable_by no_cancel max_par q → queued_pending q.
Proof.
  induction 1 as [|q op q' Hq IH Hnc Hrun].
  - intros r jb. cbn. by rewrite lookup_nil.
  - eapply queued_pending_run_op; eauto using wf_reachable.
Qed.

(** *** Completion of a worker *)

Lemma mark_done_lookup r jb q :
  heap q !! r = Some jb →
  ∃ jb1, heap (mark_done r jb q) !! r = Some jb1 ∧
         state jb1 = finished_state (state jb) ∧ worker jb1 = worker jb.
Proof.
  intros Hjb. unfold mark_done.
  destruct (state jb) eqn:Hs; cbn; rewrite ?lookup_set_state, ?decide_True by done;
    rewrite ?Hjb; simpl; eauto.
Qed.

(** Among running jobs, [==] is identity: they all have a worker of their
    own.  So [remove] takes out the finished job and nothing else. *)
Lemma remove_running_spec r jb w q q' :
  wf q → heap q !! r = Some jb → worker jb = Some w →
  remove_running r q = Ok q' →
  ∃ l, q' = set_running l q ∧ (l `sublist_of` _running q) ∧ (r ∉ l) ∧
       ∀ x, x ∈ _running q → x ≠ r → x ∈ l.
Proof.
  intros Hwf Hjb Hw (l & -> & Hsub & Hcase)%remove_running_inv.
  exists l. split_and!; try done.
  - destruct Hcase as [[Hin ->]|Hrm]; [by apply py_in_false in Hin|].
    apply py_remove_spec in Hrm as (l1 & y & l2 & Hrun & -> & Heq & _).
    assert (y = r) as ->.
    { destruct (wf_running _ Hwf y) as (jby & Hjby & [wy Hwy]).
      { rewrite Hrun, elem_of_app, elem_of_cons. auto. }
      pose proof (py_eq_worker _ _ _ _ _ _ Heq Hjby Hjb Hwy) as Hw'.
      destruct (wf_worker_of_job _ Hwf _ _ _ Hjby Hwy) as (wk1 & Hwk1 & <-).
      destruct (wf_worker_of_job _ Hwf _ _ _ Hjb Hw') as (wk2 & Hwk2 & <-).
      congruence. }
    pose proof (wf_running_nodup _ Hwf) as Hnd. rewrite Hrun in Hnd.
    apply NoDup_app in Hnd as (_ & Hl1 & [Hl2 _]%NoDup_cons).
    intros [Hin|Hin]%elem_of_app; [|done].
    apply (Hl1 _ Hin). by left.
  - intros x Hx Hne. destruct Hcase as [[_ ->]|Hrm]; [done|].
    apply py_remove_spec in Hrm as (l1 & y & l2 & Hrun & -> & Heq & _).
    rewrite Hrun in Hx. rewrite elem_of_app, elem_of_cons in Hx.
    rewrite elem_of_app.
    destruct Hx as [?|[->|?]]; [by left| |by right].
    exfalso. apply Hne.
    destruct (wf_running _ Hwf y) as (jby & Hjby & [wy Hwy]).
    { rewrite Hrun, elem_of_app, elem_of_cons. auto. }
    pose proof (py_eq_worker _ _ _ _ _ _ Heq Hjby Hjb Hwy) as Hw'.
    destruct (wf_worker_of_job _ Hwf _ _ _ Hjby Hwy) as (wk1 & Hwk1 & <-).
    destruct (wf_worker_of_job _ Hwf _ _ _ Hjb Hw') as (wk2 & Hwk2 & <-).
    congruence.
Qed.

(** C4. When the worker [w] of a job completes, [_on_finished] returns
    normally; the job ends up [Done] unless it was [Error] or [Cancelled],
    which it stays; it is no longer in the running list, which is otherwise
    as before.  With [q3] the queue at that point: if pending and running
    are both empty, exactly one [queue_empty] is emitted and nothing else
    happens; otherwise the admission pass runs on [q3] and no [queue_empty]
    is emitted. *)
Theorem on_finished_spec max_par q w wk :
  reachable_by any_op max_par q →
  workers q !! w = Some wk →
  ∃ jb q3 q',
    heap q !! w_job wk = Some jb ∧
    _on_finished (w_job wk) q = Ok q' ∧
    state_of q' (w_job wk) = Some (finished_state (state jb)) ∧
    (w_job wk ∉ _running q') ∧
    _pending q3 = _pending q ∧
    (_running q3 `sublist_of` _running q) ∧
    (w_job wk ∉ _running q3) ∧
    (∀ x, x ∈ _running q → x ≠ w_job wk → x ∈ _running q3) ∧
    match _pending q3, _running q3 with
    | [], [] =>
      q' = emit QueueEmpty q3 ∧
      count_queue_empty q' = S (count_queue_empty q)
    | _, _ =>
      _launch_if_possible q3 = Ok q' ∧
      count_queue_empty q' = count_queue_empty q
    end.
Proof.
  intros Hwf%wf_reachable Hwk. set (r := w_job wk).
  destruct (wf_job_of_worker _ Hwf _ _ Hwk) as (jb & Hjb & Hw). fold r in Hjb.
  destruct (mark_done_lookup r jb q Hjb) as (jb1 & Hjb1 & Hs1 & Hw1).
  destruct (mark_done_frame r jb q) as (_ & Hp1 & Hr1 & _ & Hsig1).
  assert (Hwf1 : wf (mark_done r jb q)) by by apply wf_mark_done.
  destruct (emit_if_tracked_total r (mark_done r jb q)) as [q2 H2].
  assert (Hwf2 : wf q2) by by eapply wf_emit_if_tracked.
  pose proof (emit_if_tracked_frame _ _ _ H2) as (_ & Hp2 & Hr2 & Hh2 & _).
  assert (Hc2 : count_queue_empty q2 = count_queue_empty q).
  { apply emit_if_tracked_inv in H2 as [->|[i ->]];
      rewrite ?count_queue_empty_emit, ?decide_False by done;
      unfold count_queue_empty; rewrite Hsig1; lia. }
  destruct (remove_running_total r q2) as [q3 H3].
  assert (Hwf3 : wf q3) by by eapply wf_remove_running.
  rewrite <- Hh2 in Hjb1. rewrite Hw in Hw1.
  destruct (remove_running_spec r jb1 w q2 q3 Hwf2 Hjb1 Hw1 H3)
    as (l & Hq3 & Hsub & Hnotin & Hkeep).
  assert (Hjb3 : heap q3 !! r = Some jb1) by by subst q3.
  assert (Hp3 : _pending q3 = _pending q) by (subst q3; cbn; congruence).
  assert (Hr3 : _running q3 = l) by by subst q3.
  assert (Hc3 : count_queue_empty q3 = count_queue_empty q) by by subst q3.
  assert (Hnp : r ∉ _pending q3).
  { intros (jb0 & Hjb0 & Hnone)%(wf_pending _ Hwf3). congruence. }
  assert (Hrun : _on_finished r q = drain_or_launch q3).
  { unfold _on_finished. rewrite Hjb, H2. simpl. by rewrite H3. }
  rewrite Hr2, Hr1 in Hsub, Hkeep.
  assert (Hst : ∀ q', (∀ x, x ∉ _pending q3 → heap q' !! x = heap q3 !! x) →
            state_of q' r = Some (finished_state (state jb))).
  { intros q' Hh'. unfold state_of. rewrite Hh' by done. by rewrite Hjb3, <- Hs1. }
  assert (Hfin : ∀ q', _launch_if_possible q3 = Ok q' →
            state_of q' r = Some (finished_state (state jb)) ∧
            (r ∉ _running q') ∧
            count_queue_empty q' = count_queue_empty q).
  { intros q' (k & _ & Hr' & _ & Hh' & Hc')%launch_prefix.
    split_and!; [by apply Hst| |congruence].
    rewrite Hr', Hr3. intros [Hin|Hin]%elem_of_app; [done|].
    apply elem_of_take in Hin as (i & Hi & _).
    apply Hnp, list_elem_of_lookup. eauto. }
  exists jb, q3.
  unfold drain_or_launch in Hrun.
  destruct (_pending q3) as [|p0 ps] eqn:Hpq3;
    [destruct (_running q3) as [|r0 rs] eqn:Hrq3|].
  - exists (emit QueueEmpty q3).
    split; [done|]. split; [done|].
    split; [apply Hst; by intros|].
    split; [cbn; rewrite Hrq3; apply not_elem_of_nil|].
    split; [congruence|].
    split; [by rewrite Hr3|].
    split; [apply not_elem_of_nil|].
    split; [by rewrite Hr3|].
    split; [done|].
    rewrite count_queue_empty_emit, decide_True by done. lia.
  - destruct (launch_if_possible_total q3 Hwf3) as [q' Hq'].
    destruct (Hfin _ Hq') as (? & ? & ?).
    exists q'.
    split; [done|]. split; [congruence|].
    split; [done|]. split; [done|]. split; [congruence|].
    split; [by rewrite Hr3|].
    split; [by rewrite Hr3|].
    split; [by rewrite Hr3|]. done.
  - destruct (launch_if_possible_total q3 Hwf3) as [q' Hq'].
    destruct (Hfin _ Hq') as (? & ? & ?).
    exists q'.
    split; [done|]. split; [congruence|].
    split; [done|]. split; [done|]. split; [congruence|].
    split; [by rewrite Hr3|].
    split; [by rewrite Hr3|].
    split; [by rewrite Hr3|]. done.
Qed.

(** *** The claims about whole runs *)

Lemma run_op_max_parallel op q q' :
  fixed_max op = true → run_op op q = Ok q' → _max_parallel q' = _max_parallel q.
Proof.
  intros Hfix. destruct op as [u o d|idx|w txt|w|n|w msg]; simpl; try done.
  - rewrite enqueue_unfold. by intros ->%launch_max_parallel.
  - intros [[_ ->]|(r & jb & _ & _ & _ & ->)]%cancel_inv; [done|].
    cbn. apply cancel_job_frame.
  - destruct (workers q !! w); [|done]. by intros (-> & _)%handle_status_frame.
  - destruct (workers q !! w) as [wk|]; [|done].
    intros (jb & q2 & q3 & _ & H2 & H3 & H4)%on_finished_inv.
    apply emit_if_tracked_frame in H2 as (Hm2 & _).
    apply remove_running_inv in H3 as (l & -> & _).
    destruct (mark_done_frame (w_job wk) jb q) as (Hm1 & _).
    revert H4. unfold drain_or_launch.
    destruct (_pending (set_running l q2)), (_running (set_running l q2));
      try (intros ->%launch_max_parallel; cbn; congruence).
    intros [= <-]. cbn. congruence.
  - destruct (workers q !! w); [|done]. by intros [= <-].
Qed.

Lemma max_parallel_reachable max_par q :
  reachable_by fixed_max max_par q → _max_parallel q = max_par.
Proof.
  induction 1 as [|q op q' _ IH Hfix Hrun]; [done|].
  rewrite <- IH. by eapply run_op_max_parallel.
Qed.

(** C1. With [_max_parallel] fixed at a positive value, after every
    operation of a run, and so after every admission pass, the running
    list holds at most [_max_parallel] jobs; a further pass keeps it so. *)
Theorem running_at_most_max_parallel max_par q :
  (0 < max_par)%Z →
  reachable_by fixed_max max_par q →
  _max_parallel q = max_par ∧
  (Z.of_nat (length (_running q)) ≤ max_par)%Z ∧
  ∀ q', _launch_if_possible q = Ok q' →
        (Z.of_nat (length (_running q')) ≤ max_par)%Z.
Proof.
  intros Hpos Hq.
  pose proof (max_parallel_reachable _ _ Hq) as Hm.
  assert (bounded q) as Hb by (apply (bounded_reachable max_par); [lia|done]).
  split_and!; [done|unfold bounded in Hb; lia|].
  intros q' Hq'. pose proof (launch_bounded _ _ Hb Hq') as Hb'.
  apply launch_max_parallel in Hq'. unfold bounded in Hb'. lia.
Qed.

(** C3. In a run without cancellations jobs are launched in the order
    they were enqueued: job references are numbered by [enqueue], and the
    jobs launched so far, in launch order, followed by the pending jobs form
    an increasing sequence; the pending jobs are exactly the jobs that are
    still [Queued]; and an admission pass launches a prefix of the pending
    jobs, head first. *)
Theorem fifo_launch_order max_par q :
  reachable_by no_cancel max_par q →
  StronglySorted lt (launched q ++ _pending q) ∧
  (∀ r jb, heap q !! r = Some jb → (state jb = Queued ↔ r ∈ _pending q)) ∧
  ∀ q', _launch_if_possible q = Ok q' →
        ∃ k, launched q' = launched q ++ take k (_pending q) ∧
             _pending q' = drop k (_pending q).
Proof.
  intros Hq. split_and!.
  - eapply wf_fifo, wf_reachable, Hq.
  - by apply (queued_pending_reachable max_par).
  - intros q' (k & Hp & _ & Hl & _)%launch_prefix. eauto.
Qed.

(** C6, amended. In every state of a run, a [Running] job has a worker and
    a [Queued] job has none.  (The reference is never reset, so a job that
    was launched keeps its worker when it is [Done], [Error] or
    [Cancelled].) *)
Theorem worker_set_when_running max_par q r jb :
  reachable_by any_op max_par q →
  heap q !! r = Some jb →
  (state jb = Running → is_Some (worker jb)) ∧
  (state jb = Queued → worker jb = None).
Proof. intros Hq. eapply wf_state_worker, wf_reachable, Hq. Qed.

(** C9. [cancel(idx)] with [idx] out of range returns normally and leaves
    the queue exactly as it was; with [idx] addressing a job that is
    [Done], [Error] or [Cancelled] it returns normally and leaves the
    pending deque, the running list and every job and worker as they
    were. *)
Theorem cancel_noop q idx :
  ((idx < 0 ∨ idx >= Z.of_nat (length (jobs q)))%Z ∨
   ∃ r jb, (0 ≤ idx)%Z ∧ jobs q !! Z.to_nat idx = Some r ∧
           heap q !! r = Some jb ∧ terminal (state jb) = true) →
  ∃ q', cancel idx q = Ok q' ∧
        _pending q' = _pending q ∧ _running q' = _running q ∧
        heap q' = heap q ∧ workers q' = workers q ∧
        _max_parallel q' = _max_parallel q ∧
        ((idx < 0 ∨ idx >= Z.of_nat (length (jobs q)))%Z → q' = q).
Proof.
  intros [Hout|(r & jb & Hidx & Hr & Hjb & Hterm)]; unfold cancel.
  - rewrite bool_decide_eq_true_2 by done. by exists q.
  - pose proof (lookup_lt_Some _ _ _ Hr) as Hlt.
    rewrite bool_decide_eq_false_2 by lia. rewrite Hr, Hjb.
    eexists. split; [done|]. unfold cancel_job.
    destruct (state jb); try done; cbn; split_and!; try done; lia.
Qed.

(** C10, amended. [cancel] does not run the admission pass.  With
    [_max_parallel] never reassigned it has no need to: cancelling frees no
    capacity (the running list is unchanged), so after every [cancel] no
    pending job is left while the running list is below [_max_parallel], and
    an admission pass would change nothing. *)
Theorem cancel_leaves_saturated max_par q idx q' :
  reachable_by fixed_max max_par q →
  cancel idx q = Ok q' →
  _running q' = _running q ∧
  (_pending q' = [] ∨ (_max_parallel q' ≤ Z.of_nat (length (_running q')))%Z) ∧
  _launch_if_possible q' = Ok q'.
Proof.
  intros Hq Hc.
  assert (saturated q') as Hs.
  { apply (saturated_run_op (Cancel idx) q q'); [done| |done].
    by apply (saturated_reachable max_par). }
  split_and!; [|done|by apply launch_saturated].
  apply cancel_inv in Hc as [[_ ->]|(r & jb & _ & _ & _ & ->)]; [done|].
  cbn. apply cancel_job_frame.
Qed.

(** *** What [cancel] does get right *)

Lemma StronglySorted_lt_NoDup l : StronglySorted lt l → NoDup l.
Proof.
  induction 1 as [|x l _ IH Hall]; constructor; [|done].
  rewrite Forall_forall in Hall. intros Hin. apply Hall in Hin. lia.
Qed.

(** X9.  A [Running] job is [Cancelled] at once and its worker is
    terminated;
    it stays in the running list until the worker's [finished] arrives. *)
Lemma cancel_running q idx r jb w :
  (0 ≤ idx)%Z → jobs q !! Z.to_nat idx = Some r →
  heap q !! r = Some jb → state jb = Running → worker jb = Some w →
  is_Some (workers q !! w) →
  ∃ q', cancel idx q = Ok q' ∧
        state_of q' r = Some Cancelled ∧
        w_terminated <$> workers q' !! w = Some true ∧
        _pending q' = _pending q ∧ _running q' = _running q.
Proof.
  intros Hidx Hr Hjb Hst Hw [wk Hwk]. unfold cancel.
  pose proof (lookup_lt_Some _ _ _ Hr) as Hlt.
  rewrite bool_decide_eq_false_2 by lia. rewrite Hr, Hjb.
  eexists. split; [done|]. unfold cancel_job. rewrite Hst, Hw.
  unfold state_of. cbn. rewrite lookup_set_state, decide_True by done.
  rewrite list_lookup_alter, decide_True by done. by rewrite Hjb, Hwk.
Qed.

(** X10.  A [Queued] job that no other pending job is equal to is taken
    out of
    the pending deque and is [Cancelled]. *)
Lemma cancel_queued_unique q idx r jb :
  wf q →
  (0 ≤ idx)%Z → jobs q !! Z.to_nat idx = Some r →
  heap q !! r = Some jb → state jb = Queued →
  (∀ x, x ∈ _pending q → x ≠ r → py_eq (heap q) x r = false) →
  ∃ q', cancel idx q = Ok q' ∧
        state_of q' r = Some Cancelled ∧
        (r ∉ _pending q') ∧
        (∀ x, x ∈ _pending q → x ≠ r → x ∈ _pending q') ∧
        _running q' = _running q.
Proof.
  intros Hwf Hidx Hr Hjb Hst Huniq. unfold cancel.
  pose proof (lookup_lt_Some _ _ _ Hr) as Hlt.
  rewrite bool_decide_eq_false_2 by lia. rewrite Hr, Hjb.
  eexists. split; [done|]. unfold cancel_job. rewrite Hst.
  assert (Hin : r ∈ _pending q).
  { assert (r ∈ jobs q) as [?|Hrun]%elem_of_app
      by (apply list_elem_of_lookup; eauto); [done|].
    destruct (wf_running _ Hwf _ Hrun) as (jb0 & Hjb0 & [w Hw]).
    destruct (wf_state_worker _ Hwf _ _ Hjb) as [_ Hnone].
    specialize (Hnone Hst). congruence. }
  destruct (py_remove_in (heap q) _ _ (py_in_elem (heap q) _ _ Hin)) as [p Hrm].
  rewrite Hrm.
  apply py_remove_spec in Hrm as (l1 & y & l2 & Hp & -> & Heq & _).
  assert (y = r) as ->.
  { destruct (decide (y = r)) as [|Hne]; [done|].
    rewrite Huniq in Heq; [done| |done].
    rewrite Hp, elem_of_app, elem_of_cons. auto. }
  pose proof (wf_fifo _ Hwf) as Hnd.
  apply StronglySorted_app_1_r, StronglySorted_lt_NoDup in Hnd.
  rewrite Hp in Hnd.
  apply NoDup_app in Hnd as (_ & Hl1 & [Hl2 _]%NoDup_cons).
  unfold state_of. cbn. rewrite lookup_set_state, decide_True by done.
  rewrite Hjb. split; [done|]. split; [|split; [|done]].
  - intros [Hx|Hx]%elem_of_app; [|done]. apply (Hl1 _ Hx). by left.
  - intros x Hx Hne. rewrite Hp, elem_of_app, elem_of_cons in Hx.
    rewrite elem_of_app. destruct Hx as [?|[?|?]]; auto. done.
Qed.

End QueueProofs.

(** ** Concrete runs of the queue *)

Lemma state_after_reachable allowed max_par ops :
  forallb allowed ops = true →
  is_ok (run_ops ops (init max_par)) = true →
  reachable_by allowed max_par (state_after max_par ops).
Proof.
  intros Hall Hok. unfold state_after.
  destruct (run_ops ops (init max_par)) as [q| |] eqn:Hrun; try done.
  eapply run_ops_reachable; [apply reach_init|done|done].
Qed.

(** The hypotheses of the theorems about runs hold in concrete runs. *)

Lemma running_at_most_max_parallel_witness :
  let q := state_after 2 [enq "a"; enq "b"; enq "c"; WorkerFinished 0; Cancel 0] in
  (0 < 2)%Z ∧
  reachable_by fixed_max 2 q ∧
  _max_parallel q = 2%Z ∧
  (Z.of_nat (length (_running q)) ≤ 2)%Z ∧
  ∀ q', _launch_if_possible q = Ok q' →
        (Z.of_nat (length (_running q')) ≤ 2)%Z.
Proof.
  assert (reachable_by fixed_max 2
            (state_after 2 [enq "a"; enq "b"; enq "c"; WorkerFinished 0; Cancel 0]))
    as Hq by (apply state_after_reachable; reflexivity).
  split; [lia|]. split; [exact Hq|].
  apply (running_at_most_max_parallel 2); [lia|exact Hq].
Defined.

Lemma fifo_launch_order_witness :
  let q := state_after 1 [enq "a"; enq "b"; enq "c"; WorkerFinished 0; SetMaxParallel 3] in
  reachable_by no_cancel 1 q ∧
  StronglySorted lt (launched q ++ _pending q) ∧
  (∀ r jb, heap q !! r = Some jb → (state jb = Queued ↔ r ∈ _pending q)) ∧
  ∀ q', _launch_if_possible q = Ok q' →
        ∃ k, launched q' = launched q ++ take k (_pending q) ∧
             _pending q' = drop k (_pending q).
Proof.
  assert (reachable_by no_cancel 1
            (state_after 1 [enq "a"; enq "b"; enq "c"; WorkerFinished 0;
                            SetMaxParallel 3]))
    as Hq by (apply state_after_reachable; reflexivity).
  split; [exact Hq|]. apply (fifo_launch_order 1), Hq.
Defined.

Lemma on_finished_spec_witness :
  let q := state_after 1 [enq "a"; enq "b"] in
  let wk := mkWorker ["a"] demo_opts 0 false in
  reachable_by any_op 1 q ∧
  workers q !! 0 = Some wk ∧
  ∃ jb q3 q',
    heap q !! w_job wk = Some jb ∧
    _on_finished (w_job wk) q = Ok q' ∧
    state_of q' (w_job wk) = Some (finished_state (state jb)) ∧
    (w_job wk ∉ _running q') ∧
    _pending q3 = _pending q ∧
    (_running q3 `sublist_of` _running q) ∧
    (w_job wk ∉ _running q3) ∧
    (∀ x, x ∈ _running q → x ≠ w_job wk → x ∈ _running q3) ∧
    match _pending q3, _running q3 with
    | [], [] =>
      q' = emit QueueEmpty q3 ∧
      count_queue_empty q' = S (count_queue_empty q)
    | _, _ =>
      _launch_if_possible q3 = Ok q' ∧
      count_queue_empty q' = count_queue_empty q
    end.
Proof.
  assert (reachable_by any_op 1 (state_after 1 [enq "a"; enq "b"]))
    as Hq by (apply state_after_reachable; reflexivity).
  split; [exact Hq|]. split; [reflexivity|].
  apply (on_finished_spec 1 (state_after 1 [enq "a"; enq "b"]) 0);
    [exact Hq|reflexivity].
Defined.

Lemma worker_set_when_running_witness :
  let q := state_after 1 [enq "a"; enq "b"] in
  let jb := mkJob ["a"] demo_opts "/downloads" Running (Some 0) in
  reachable_by any_op 1 q ∧
  heap q !! 0 = Some jb ∧
  (state jb = Running → is_Some (worker jb)) ∧
  (state jb = Queued → worker jb = None).
Proof.
  assert (reachable_by any_op 1 (state_after 1 [enq "a"; enq "b"]))
    as Hq by (apply state_after_reachable; reflexivity).
  split; [exact Hq|]. split; [reflexivity|].
  apply (worker_set_when_running 1 (state_after 1 [enq "a"; enq "b"]) 0);
    [exact Hq|reflexivity].
Defined.

Lemma cancel_noop_witness :
  let q := state_after 1 [enq "a"; enq "b"; Cancel 1] in
  let jb := mkJob ["a"] demo_opts "/downloads" Cancelled (Some 0) in
  (jobs q !! Z.to_nat 1 = Some 0 ∧ heap q !! 0 = Some jb ∧
   terminal (state jb) = true) ∧
  ∃ q', cancel 1 q = Ok q' ∧
        _pending q' = _pending q ∧ _running q' = _running q ∧
        heap q' = heap q ∧ workers q' = workers q ∧
        _max_parallel q' = _max_parallel q ∧
        ((1 < 0 ∨ 1 >= Z.of_nat (length (jobs q)))%Z → q' = q).
Proof.
  split; [split_and!; reflexivity|].
  apply (cancel_noop (state_after 1 [enq "a"; enq "b"; Cancel 1]) 1).
  right. exists 0, (mkJob ["a"] demo_opts "/downloads" Cancelled (Some 0)).
  split_and!; [lia|reflexivity|reflexivity|reflexivity].
Defined.

Lemma cancel_leaves_saturated_witness :
  let q := state_after 1 [enq "a"; enq "b"; enq "c"] in
  let q' := state_after 1 [enq "a"; enq "b"; enq "c"; Cancel 0] in
  reachable_by fixed_max 1 q ∧
  cancel 0 q = Ok q' ∧
  _running q' = _running q ∧
  (_pending q' = [] ∨ (_max_parallel q' ≤ Z.of_nat (length (_running q')))%Z) ∧
  _launch_if_possible q' = Ok q'.
Proof.
  assert (reachable_by fixed_max 1 (state_after 1 [enq "a"; enq "b"; enq "c"]))
    as Hq by (apply state_after_reachable; reflexivity).
  split; [exact Hq|]. split; [reflexivity|].
  apply (cancel_leaves_saturated 1
           (state_after 1 [enq "a"; enq "b"; enq "c"]) 0
           (state_after 1 [enq "a"; enq "b"; enq "c"; Cancel 0]));
    [exact Hq|reflexivity].
Defined.

(** C6, as stated, fails: after [enqueue] and [cancel(0)] with
    [max_parallel = 1] the job is in the running list, [Cancelled], and
    still holds its worker. *)
Lemma worker_iff_running_counterexample :
  let q := state_after 1 [enq "a"; Cancel 0] in
  let jb := mkJob ["a"] demo_opts "/downloads" Cancelled (Some 0) in
  reachable_by any_op 1 q ∧ 0 ∈ jobs q ∧ heap q !! 0 = Some jb ∧
  ¬ (is_Some (worker jb) ↔ state jb = Running).
Proof.
  split_and!.
  - apply state_after_reachable; reflexivity.
  - vm_compute. left.
  - reflexivity.
  - simpl. intros [Hw _]. by specialize (Hw (mk_is_Some _ _ eq_refl)).
Qed.

(** C10, as stated, fails: with [max_parallel = 1], three jobs are
    enqueued, the combo box raises [_max_parallel] to 2, and the first
    pending job is cancelled.  [cancel] returns with a job still pending
    and one running job, below [_max_parallel]; an admission pass on that
    queue would launch the pending job. *)
Lemma cancel_runs_no_admission_counterexample :
  let q := state_after 1 [enq "a"; enq "b"; enq "c"; SetMaxParallel 2] in
  ∃ q', reachable_by any_op 1 q ∧
        cancel 0 q = Ok q' ∧
        state_of q 1 = Some Queued ∧ state_of q' 1 = Some Cancelled ∧
        _pending q' = [2] ∧ _running q' = [0] ∧ _max_parallel q' = 2%Z ∧
        ¬ (_pending q' = [] ∨ (_max_parallel q' ≤ Z.of_nat (length (_running q')))%Z) ∧
        _launch_if_possible q' ≠ Ok q'.
Proof.
  eexists. split_and!.
  - apply state_after_reachable; reflexivity.
  - vm_compute. reflexivity.
  - reflexivity.
  - reflexivity.
  - reflexivity.
  - reflexivity.
  - reflexivity.
  - cbn. intros [?|?]; [done|lia].
  - vm_compute. discriminate.
Qed.

(** C2, on the code: a [Cancelled] job changes state again.  First run: the
    job is cancelled while running and an error status of its worker,
    emitted before the thread stopped, is handled afterwards;
    [_handle_status] sets [Error].  Second run: two equal jobs are pending,
    the second is cancelled, [deque.remove] drops the first, and the
    cancelled job is launched when the running one finishes. *)
Theorem terminal_state_overwritten :
  (let q := state_after 1 [enq "a"; Cancel 0] in
   ∃ q', reachable_by any_op 1 q ∧
         state_of q 0 = Some Cancelled ∧
         run_op (WorkerStatus 0 "Error: timed out") q = Ok q' ∧
         state_of q' 0 = Some Error) ∧
  (let q := state_after 1 [enq "x"; enq "u"; enq "u"; Cancel 1] in
   ∃ q', reachable_by any_op 1 q ∧
         state_of q 2 = Some Cancelled ∧
         run_op (WorkerFinished 0) q = Ok q' ∧
         state_of q' 2 = Some Running).
Proof.
  split; eexists; split_and!;
    try (apply state_after_reachable; reflexivity);
    try reflexivity; vm_compute; reflexivity.
Qed.

(** C5, on the code: [enq "u"] twice gives two jobs that are equal as
    dataclass instances.  [cancel(1)] addresses the second one (reference
    2); [self._pending.remove(job)] removes the first job equal to it,
    reference 1.  The cancelled job stays in [_pending], the job that was
    not cancelled is dropped from the queue while [Queued], and when the
    running job finishes the cancelled job is launched. *)
Theorem cancel_queued_duplicate :
  let q := state_after 1 [enq "x"; enq "u"; enq "u"] in
  ∃ q' q'',
    reachable_by any_op 1 q ∧
    jobs q = [1; 2; 0] ∧ state_of q 2 = Some Queued ∧
    cancel 1 q = Ok q' ∧
    _pending q' = [2] ∧ state_of q' 2 = Some Cancelled ∧
    state_of q' 1 = Some Queued ∧
    run_op (WorkerFinished 0) q' = Ok q'' ∧
    _running q'' = [2] ∧ launched q'' = [0; 2] ∧
    state_of q'' 2 = Some Running ∧ state_of q'' 1 = Some Queued.
Proof.
  eexists; eexists; split_and!;
    try (apply state_after_reachable; reflexivity);
    try reflexivity; vm_compute; reflexivity.
Qed.

(** ** Properties of the worker *)

Section WorkerProofs.

Variable path_name : string → string.

(** [float] raises nothing but [ValueError]. *)
Lemma py_float_cases s :
  (∃ f, py_float s = Ok f) ∨ (∃ msg, py_float s = Raise (mkExc ValueError msg)).
Proof.
  unfold py_float. destruct (drop_underscores _ _) as [t|]; [|eauto].
  destruct (parse_float _) as [f|]; eauto.
Qed.

(** The percentage is the parsed number, and [0.0] when the cleaned text is
    empty or does not parse. *)
Lemma percent_of_spec s :
  percent_of s =
  Ok (match strip (ansi_sub (remove_char "%" s)) with
      | EmptyString => float_zero
      | t => match py_float t with Ok f => f | _ => float_zero end
      end).
Proof.
  unfold percent_of. destruct (strip _) as [|c t]; [done|].
  destruct (py_float_cases (String c t)) as [[f ->]|[msg ->]]; done.
Qed.

Lemma hook_total data :
  ∃ sigs, _hook path_name data = Ok sigs ∧ statuses sigs = [].
Proof.
  unfold _hook. case_bool_decide; [|by exists []].
  rewrite percent_of_spec. simpl. eauto.
Qed.

Lemma download_spec cbs o :
  ∃ sigs, download path_name cbs o = (sigs, o) ∧ statuses sigs = [].
Proof.
  induction cbs as [|[data|msg] cbs (rest & IH & Hrest)]; simpl.
  - by exists [].
  - destruct (hook_total data) as (sigs & -> & Hsigs). rewrite IH.
    exists (sigs ++ rest). split; [done|].
    unfold statuses in *. by rewrite omap_app, Hsigs, Hrest.
  - rewrite IH. exists (Log msg :: rest). by split.
Qed.

(** C7. Whenever what the engine raises, if anything, is an [Exception]
    (an error), no exception leaves [run], and [run] emits exactly one
    status: ["Finished"] when [download] returned, and ["Error: "] followed
    by the text of the exception when it raised. *)
Theorem run_emits_final_status e :
  (∀ exc, outcome e = Some exc → is_Exception (exc_class exc) = true) →
  uncaught (run path_name e) = None ∧
  statuses (emitted (run path_name e)) =
    [match outcome e with
     | None => "Finished"
     | Some exc => "Error: " +:+ exc_str exc
     end].
Proof.
  intros Herr. unfold run.
  destruct (download_spec (callbacks e) (outcome e)) as (sigs & -> & Hsigs).
  destruct (outcome e) as [exc|].
  - rewrite (Herr exc eq_refl). simpl. split; [done|].
    unfold statuses in *. by rewrite omap_app, Hsigs.
  - simpl. split; [done|]. unfold statuses in *. by rewrite omap_app, Hsigs.
Qed.

(** C8. For a hook call with status ["downloading"], [_hook] raises
    nothing and emits one progress signal.  Its percentage is read from
    [_percent_str] without the ['%'] signs and the colour codes: [0.0] when
    what is left is empty or is not a number for [float], the number
    otherwise; so ["abc"] and the empty string give [0.0] and ["\x1b[32m42%\x1b[0m"]
    gives [42.0]. *)
Theorem hook_percent data :
  data !! "status" = Some "downloading" →
  ∃ pct,
    _hook path_name data =
      Ok [Progress pct (path_name (get_str data "filename"))] ∧
    (let t := strip (ansi_sub (remove_char "%" (get_str data "_percent_str"))) in
     (t = EmptyString → pct = float_zero) ∧
     (∀ e, py_float t = Raise e → pct = float_zero) ∧
     (∀ f, t ≠ EmptyString → py_float t = Ok f → pct = f)) ∧
    (get_str data "_percent_str" = "abc" → pct = float_zero) ∧
    (get_str data "_percent_str" = EmptyString → pct = float_zero) ∧
    (get_str data "_percent_str" = String esc "[32m42%" +:+ String esc "[0m" →
     pct = float_of_N 42).
Proof.
  intros Hst. unfold _hook. rewrite bool_decide_eq_true_2 by done.
  rewrite percent_of_spec. simpl. eexists. split; [done|].
  split_and!.
  - intros ->. done.
  - intros e He. destruct (strip _); [done|]. by rewrite He.
  - intros f Hne Hf. destruct (strip _); [done|]. by rewrite Hf.
  - by intros ->.
  - by intros ->.
  - by intros ->.
Qed.

End WorkerProofs.

Lemma run_emits_final_status_witness :
  let e := mkEngineRun
             [LogCall "[download] Destination: a.mp4";
              HookCall {[ "status" := "downloading"; "_percent_str" := " 12.5%";
                          "filename" := "a.mp4" ]}]
             (Some (mkExc DownloadError "network unreachable")) in
  (∀ exc, outcome e = Some exc → is_Exception (exc_class exc) = true) ∧
  uncaught (run plain_name e) = None ∧
  statuses (emitted (run plain_name e)) = ["Error: network unreachable"].
Proof.
  assert (∀ exc, Some (mkExc DownloadError "network unreachable") = Some exc →
                 is_Exception (exc_class exc) = true) as Herr.
  { intros exc [= <-]. reflexivity. }
  split; [exact Herr|].
  apply (run_emits_final_status plain_name
    (mkEngineRun
       [LogCall "[download] Destination: a.mp4";
        HookCall {[ "status" := "downloading"; "_percent_str" := " 12.5%";
                    "filename" := "a.mp4" ]}]
       (Some (mkExc DownloadError "network unreachable")))).
  exact Herr.
Defined.

Lemma hook_percent_witness :
  let data : gmap string string :=
    {[ "status" := "downloading";
       "_percent_str" := String esc "[32m42%" +:+ String esc "[0m";
       "filename" := "a.mp4" ]} in
  data !! "status" = Some "downloading" ∧
  ∃ pct,
    _hook plain_name data =
      Ok [Progress pct (plain_name (get_str data "filename"))] ∧
    (let t := strip (ansi_sub (remove_char "%" (get_str data "_percent_str"))) in
     (t = EmptyString → pct = float_zero) ∧
     (∀ e, py_float t = Raise e → pct = float_zero) ∧
     (∀ f, t ≠ EmptyString → py_float t = Ok f → pct = f)) ∧
    (get_str data "_percent_str" = "abc" → pct = float_zero) ∧
    (get_str data "_percent_str" = EmptyString → pct = float_zero) ∧
    (get_str data "_percent_str" = String esc "[32m42%" +:+ String esc "[0m" →
     pct = float_of_N 42).
Proof.
  split; [vm_compute; reflexivity|].
  apply (hook_percent plain_name
    {[ "status" := "downloading";
       "_percent_str" := String esc "[32m42%" +:+ String esc "[0m";
       "filename" := "a.mp4" ]}).
  vm_compute. reflexivity.
Defined.

(** ** More properties of the job queue *)

Section QueueInvariants.

Context {Opts : Type} `{!EqDecision Opts}.

Implicit Types (q : @JobQueue Opts) (jb : @Job Opts) (h : list (@Job Opts)).
Implicit Types (op : @Op Opts) (wk : @Worker Opts).
Implicit Types (l p : list nat) (r x y w : nat).

(** X1. No method of the queue raises: in every state of a run, every
    operation that can happen returns normally.  In particular the
    unguarded [self.jobs().index(job)] of [_launch_if_possible] always finds
    the job. *)
Theorem queue_never_raises max_par q op :
  reachable_by any_op max_par q →
  enabled op q →
  ∃ q', run_op op q = Ok q' ∧ reachable_by any_op max_par q'.
Proof.
  intros Hq Hen.
  destruct (run_op_total_wf op q (wf_reachable _ _ _ Hq) Hen) as [q' Hrun].
  exists q'. split; [done|]. by eapply reach_step.
Qed.

(** X2. Also with cancellations and changes of [_max_parallel], jobs are
    launched in the order they were enqueued, no job is launched twice, and
    every pending job is younger than every launched one. *)
Theorem launch_order_in_every_run max_par q :
  reachable_by any_op max_par q →
  StronglySorted lt (launched q ++ _pending q) ∧
  NoDup (launched q) ∧
  ∀ x y, x ∈ launched q → y ∈ _pending q → x < y.
Proof.
  intros Hwf%wf_reachable. pose proof (wf_fifo _ Hwf) as Hs.
  split_and!; [done| |].
  - by eapply StronglySorted_lt_NoDup, StronglySorted_app_1_l.
  - intros x y. by apply StronglySorted_app_1_elem_of.
Qed.

(** X3. A job is never listed twice by [jobs()]: the pending deque and the
    running list have no duplicates and share no job. *)
Theorem jobs_no_duplicates max_par q :
  reachable_by any_op max_par q → NoDup (jobs q).
Proof.
  intros Hwf%wf_reachable. unfold jobs. apply NoDup_app. split_and!.
  - eapply StronglySorted_lt_NoDup, StronglySorted_app_1_r, (wf_fifo _ Hwf).
  - intros r (jb & Hjb & Hnone)%(wf_pending _ Hwf)
             (jb' & Hjb' & [w Hw])%(wf_running _ Hwf). congruence.
  - apply (wf_running_nodup _ Hwf).
Qed.

Lemma launch_single q r :
  _pending q = [r] →
  (Z.of_nat (length (_running q)) < _max_parallel q)%Z →
  _launch_if_possible q = launch_one r [] q.
Proof.
  intros Hp Hfree. unfold _launch_if_possible. rewrite Hp. simpl.
  rewrite Hp, bool_decide_eq_true_2 by done.
  by destruct (launch_one r [] q).
Qed.

(** X4. With [_max_parallel] never reassigned, [enqueue] launches the new
    job at once exactly when a slot is free: then the job is [Running] at
    the end of the running list and nothing is pending; otherwise the job
    is [Queued] at the end of the pending deque and the running list is
    unchanged. *)
Theorem enqueue_launches_iff_slot_free max_par q u o d :
  reachable_by fixed_max max_par q →
  ∃ q', enqueue u o d q = Ok q' ∧
        heap q' !! length (heap q) ≠ None ∧
        if bool_decide (Z.of_nat (length (_running q)) < _max_parallel q)%Z
        then _pending q = [] ∧ _pending q' = [] ∧
             _running q' = _running q ++ [length (heap q)] ∧
             state_of q' (length (heap q)) = Some Running
        else _pending q' = _pending q ++ [length (heap q)] ∧
             _running q' = _running q ∧
             state_of q' (length (heap q)) = Some Queued.
Proof.
  intros Hsat%saturated_reachable. rewrite enqueue_unfold.
  set (n := length (heap q)).
  set (q1 := set_pending _ _).
  assert (Hn : heap q1 !! n = Some (mkJob u o d Queued None)).
  { cbn. apply lookup_snoc_Some. right. done. }
  case_bool_decide as Hfree.
  - destruct Hsat as [Hp|Hfull]; [|lia].
    rewrite (launch_single q1 n) by (cbn; by rewrite ?Hp).
    destruct (launch_one_total n [] q1 _ Hn) as [q' H1]. rewrite H1.
    exists q'. split; [done|].
    apply launch_one_inv in H1 as (jb & i & Hjb & _ & Hp' & Hr' & Hh' & _).
    assert (n < length (heap q1)) by by eapply lookup_lt_Some.
    unfold state_of. rewrite Hh', list_lookup_insert_eq by done.
    split_and!; done.
  - rewrite launch_saturated by (right; cbn; lia).
    exists q1. split; [done|]. unfold state_of. rewrite Hn. split_and!; done.
Qed.

(** X5. After any operation no job listed by [jobs()] is [Done]:
    [_on_finished] takes a job out of the running list in the same call
    that marks it [Done]. *)
Theorem no_done_job_is_tracked max_par q r jb :
  reachable_by any_op max_par q →
  r ∈ jobs q → heap q !! r = Some jb → state jb ≠ Done.
Proof.
  intros Hq. revert r jb.
  induction Hq as [|q op q' Hq IH _ Hrun]; intros r jb.
  { intros Hr. by apply elem_of_nil in Hr. }
  pose proof (wf_reachable _ _ _ Hq) as Hwf.
  assert (Hpass : ∀ q0 q1,
    (∀ r jb, r ∈ jobs q0 → heap q0 !! r = Some jb → state jb ≠ Done) →
    _launch_if_possible q0 = Ok q1 →
    ∀ r jb, r ∈ jobs q1 → heap q1 !! r = Some jb → state jb ≠ Done).
  { apply (launch_if_possible_preserves (fun q1 =>
      ∀ r jb, r ∈ jobs q1 → heap q1 !! r = Some jb → state jb ≠ Done)).
    intros qa r0 rest qb Ha Hp _
      (jb0 & i & Hjb0 & _ & Hp1 & Hr1 & Hh1 & _)%launch_one_inv x jbx.
    unfold jobs. rewrite Hp1, Hr1, Hh1.
    destruct (decide (r0 = x)) as [->|Hne].
    - rewrite list_lookup_insert_eq by by eapply lookup_lt_Some.
      intros _ [= <-]. done.
    - rewrite list_lookup_insert_ne by done. intros Hx. apply Ha.
      unfold jobs. rewrite Hp.
      rewrite !elem_of_app, list_elem_of_singleton in Hx.
      rewrite elem_of_app, elem_of_cons.
      destruct Hx as [?|[?|?]]; [left; by right|by right|congruence]. }
  destruct op as [u o d|idx|w txt|w|n|w msg]; simpl in Hrun.
  - rewrite enqueue_unfold in Hrun. eapply Hpass; [|exact Hrun].
    intros x jbx. unfold jobs. cbn.
    intros Hx [[Hlt Hjb]|[-> <-]]%lookup_snoc_Some; [|simpl; discriminate].
    eapply IH; [|exact Hjb]. unfold jobs.
    rewrite !elem_of_app, list_elem_of_singleton in Hx.
    rewrite elem_of_app. destruct Hx as [[?|?]|?]; [by left|lia|by right].
  - apply cancel_inv in Hrun as [[_ ->]|(r0 & jb0 & _ & _ & _ & ->)];
      [apply IH|].
    unfold jobs. cbn.
    destruct (cancel_job_frame r0 jb0 q) as (_ & -> & Hsub & _).
    intros Hr. assert (r ∈ jobs q) as Hin.
    { unfold jobs. apply elem_of_app in Hr as [Hr|Hr];
        apply elem_of_app; [left|by right]. by eapply elem_of_sublist. }
    clear Hr Hsub. unfold cancel_job.
    destruct (state jb0), (worker jb0); cbn; try by apply IH.
    all: rewrite lookup_set_state; case_decide; [|by apply IH].
    all: destruct (heap q !! r); simpl; [|done]; by intros [= <-].
  - destruct (workers q !! w) as [wk|]; [|done].
    unfold _handle_status in Hrun.
    apply emit_if_tracked_frame in Hrun as (_ & Hp & Hr & Hh & _).
    unfold jobs. rewrite Hp, Hr, Hh.
    destruct (String.prefix _ _); [|by apply IH]. cbn.
    rewrite lookup_set_state. case_decide; [|by apply IH].
    destruct (heap q !! r); simpl; [|done]. by intros _ [= <-].
  - destruct (workers q !! w) as [wk|] eqn:Hwk; [|done].
    apply on_finished_inv in Hrun as (jb0 & q2 & q3 & Hjb0 & H2 & H3 & H4).
    destruct (wf_job_of_worker _ Hwf _ _ Hwk) as (jb1 & Hjb1 & Hw1).
    assert (jb1 = jb0) as -> by congruence.
    destruct (mark_done_lookup _ _ _ Hjb0) as (jb2 & Hjb2 & _ & Hw2).
    destruct (mark_done_frame (w_job wk) jb0 q) as (_ & Hpm & Hrm & _).
    pose proof (wf_mark_done (w_job wk) jb0 q Hwf) as Hwfm.
    pose proof (wf_emit_if_tracked _ _ _ Hwfm H2) as Hwf2.
    pose proof (emit_if_tracked_frame _ _ _ H2) as (_ & Hp2 & Hr2 & Hh2 & _).
    rewrite <- Hh2, Hw1 in *.
    destruct (remove_running_spec _ _ _ _ _ Hwf2 Hjb2 Hw2 H3)
      as (l & -> & Hsub & Hnotin & _).
    assert (H3ok : ∀ x jbx, x ∈ jobs (set_running l q2) →
              heap (set_running l q2) !! x = Some jbx → state jbx ≠ Done).
    { intros x jbx. unfold jobs. cbn. rewrite Hp2, Hpm. intros Hx.
      assert (x ≠ w_job wk ∧ x ∈ jobs q) as [Hne Hin].
      { apply elem_of_app in Hx as [Hx|Hx].
        - split; [|unfold jobs; apply elem_of_app; by left]. intros ->.
          destruct (wf_pending _ Hwf _ Hx) as (jb3 & ? & ?). congruence.
        - split; [by intros ->|]. unfold jobs. apply elem_of_app. right.
          rewrite <- Hrm, <- Hr2. by eapply elem_of_sublist. }
      rewrite Hh2. unfold mark_done. destruct (state jb0); cbn;
        rewrite ?lookup_set_state, ?decide_False by done; by apply IH. }
    unfold drain_or_launch in H4.
    destruct (_pending (set_running l q2)) eqn:Hp3,
             (_running (set_running l q2)) eqn:Hr3;
      try (eapply Hpass; [exact H3ok|exact H4]).
    injection H4 as <-. unfold jobs. cbn in *. rewrite Hp3, Hr3.
    intros Hx. by apply elem_of_nil in Hx.
  - case_bool_decide; [|done]. injection Hrun as <-. apply IH.
  - destruct (workers q !! w); [|done]. injection Hrun as <-. apply IH.
Qed.

(** A worker that [cancel] has terminated belongs to a job that is
    [Cancelled] or [Error]. *)
Lemma terminated_inv_set_state r s q :
  s = Cancelled ∨ s = Error →
  (∀ w wk jb, workers q !! w = Some wk → w_terminated wk = true →
     heap q !! w_job wk = Some jb → state jb = Cancelled ∨ state jb = Error) →
  ∀ w wk jb, workers (set_state r s q) !! w = Some wk → w_terminated wk = true →
     heap (set_state r s q) !! w_job wk = Some jb →
     state jb = Cancelled ∨ state jb = Error.
Proof.
  intros Hs IH w wk jb Hwk Hterm. cbn in *.
  rewrite lookup_set_state. case_decide; [|by eapply IH].
  destruct (heap q !! w_job wk); simpl; [|done]. by intros [= <-].
Qed.

Lemma terminated_inv_run_op op q q' :
  wf q →
  (∀ w wk jb, workers q !! w = Some wk → w_terminated wk = true →
     heap q !! w_job wk = Some jb → state jb = Cancelled ∨ state jb = Error) →
  run_op op q = Ok q' →
  ∀ w wk jb, workers q' !! w = Some wk → w_terminated wk = true →
     heap q' !! w_job wk = Some jb → state jb = Cancelled ∨ state jb = Error.
Proof.
  intros Hwf IH Hrun.
  assert (Hpass : ∀ q0 q1,
    wf q0 ∧
    (∀ w wk jb, workers q0 !! w = Some wk → w_terminated wk = true →
       heap q0 !! w_job wk = Some jb → state jb = Cancelled ∨ state jb = Error) →
    _launch_if_possible q0 = Ok q1 →
    wf q1 ∧
    ∀ w wk jb, workers q1 !! w = Some wk → w_terminated wk = true →
       heap q1 !! w_job wk = Some jb → state jb = Cancelled ∨ state jb = Error).
  { apply (launch_if_possible_preserves (fun q1 => wf q1 ∧
      ∀ w wk jb, workers q1 !! w = Some wk → w_terminated wk = true →
        heap q1 !! w_job wk = Some jb → state jb = Cancelled ∨ state jb = Error)).
    intros qa r0 rest qb [Hwfa Ha] Hp _ H1.
    split; [by eapply wf_launch_one|].
    apply launch_one_inv in H1 as (jb0 & i & Hjb0 & _ & _ & _ & Hh1 & Hw1 & _).
    intros w wk jb. rewrite Hh1, Hw1.
    intros [[_ Hwk]|[_ <-]]%lookup_snoc_Some Hterm; [|done].
    destruct (wf_job_of_worker _ Hwfa _ _ Hwk) as (jb1 & Hjb1 & Hw).
    destruct (wf_pending _ Hwfa r0) as (jb2 & Hjb2 & Hnone);
      [rewrite Hp; left|].
    rewrite list_lookup_insert_ne by (intros ->; congruence).
    by eapply Ha. }
  destruct op as [u o d|idx|w0 txt|w0|n|w0 msg]; simpl in Hrun.
  - rewrite enqueue_unfold in Hrun.
    eapply Hpass; [|exact Hrun]. split; [by apply wf_enqueue_pre|].
    intros w wk jb Hwk Hterm. cbn in *.
    destruct (wf_job_of_worker _ Hwf _ _ Hwk) as (jb1 & Hjb1 & _).
    rewrite lookup_app_l by by eapply lookup_lt_Some. by eapply IH.
  - apply cancel_inv in Hrun as [[_ ->]|(r0 & jb0 & _ & _ & Hjb0 & ->)];
      [done|].
    unfold cancel_job. destruct (state jb0) eqn:Hst, (worker jb0) eqn:Hw0;
      try done; cbn.
    1,2: apply terminated_inv_set_state; [by left|exact IH].
    intros w wk' jb Hwk' Hterm. cbn.
    pose proof (lookup_terminate n (workers q) w) as Hl. rewrite Hwk' in Hl.
    destruct (workers q !! w) as [wk|] eqn:Hwk; [|done].
    simpl in Hl. injection Hl as Hjob. rewrite Hjob.
    rewrite lookup_set_state. case_decide as Hr0.
    { destruct (heap q !! w_job wk); simpl; [|done]. intros [= <-]. by left. }
    rewrite list_lookup_alter in Hwk'. case_decide as Hn.
    + subst w. destruct (wf_worker_of_job _ Hwf _ _ _ Hjb0 Hw0)
        as (wk0 & Hwk0 & Hj0). congruence.
    + intros Hjb. eapply IH; [exact Hwk| |exact Hjb]. congruence.
  - destruct (workers q !! w0) as [wk0|]; [|done].
    unfold _handle_status in Hrun.
    apply emit_if_tracked_frame in Hrun as (_ & _ & _ & -> & ->).
    destruct (String.prefix _ _); [|done]. cbn.
    by apply (terminated_inv_set_state _ Error q); [right|].
  - destruct (workers q !! w0) as [wk0|] eqn:Hwk0; [|done].
    apply on_finished_inv in Hrun as (jb0 & q2 & q3 & Hjb0 & H2 & H3 & H4).
    pose proof (wf_mark_done (w_job wk0) jb0 q Hwf) as Hwfm.
    pose proof (wf_emit_if_tracked _ _ _ Hwfm H2) as Hwf2.
    pose proof (wf_remove_running _ _ _ Hwf2 H3) as Hwf3.
    apply emit_if_tracked_frame in H2 as (_ & _ & _ & Hh2 & Hw2).
    apply remove_running_inv in H3 as (l & -> & _).
    assert (H3ok : ∀ w wk jb, workers q2 !! w = Some wk → w_terminated wk = true →
              heap q2 !! w_job wk = Some jb →
              state jb = Cancelled ∨ state jb = Error).
    { rewrite Hh2, Hw2. unfold mark_done.
      destruct (state jb0) eqn:Hst; try done; cbn.
      all: intros w wk jb Hwk Hterm; rewrite lookup_set_state.
      all: case_decide as Hr; [|by eapply IH].
      all: rewrite Hr in Hjb0; destruct (IH _ _ _ Hwk Hterm Hjb0); congruence. }
    unfold drain_or_launch in H4.
    destruct (_pending (set_running l q2)), (_running (set_running l q2));
      try (eapply Hpass; [|exact H4]; by split).
    by injection H4 as <-.
  - case_bool_decide; [|done]. by injection Hrun as <-.
  - destruct (workers q !! w0); [|done]. by injection Hrun as <-.
Qed.

(** X6. A job that [cancel] stopped while it was running is never reported
    [Done], and never runs again: in every later state the job of a
    terminated worker is [Cancelled] or [Error]. *)
Theorem cancelled_running_job_never_done max_par q w wk :
  reachable_by any_op max_par q →
  workers q !! w = Some wk → w_terminated wk = true →
  ∃ jb, heap q !! w_job wk = Some jb ∧
        (state jb = Cancelled ∨ state jb = Error).
Proof.
  intros Hq Hwk Hterm.
  destruct (wf_job_of_worker _ (wf_reachable _ _ _ Hq) _ _ Hwk)
    as (jb & Hjb & _).
  exists jb. split; [done|]. revert w wk jb Hwk Hterm Hjb.
  induction Hq as [|q op q' Hq IH _ Hrun]; [by intros w wk jb|].
  eapply terminated_inv_run_op; eauto using wf_reachable.
Qed.

(** X7. The queue never idles with work waiting: while [_max_parallel] is
    positive, also when it is changed during the run, a pending job implies
    a running one. *)
Theorem pending_implies_running max_par q :
  (0 < max_par)%Z →
  reachable_by any_op max_par q →
  (0 < _max_parallel q)%Z ∧ (_pending q ≠ [] → _running q ≠ []).
Proof.
  intros Hpos Hq.
  cut ((0 < _max_parallel q)%Z ∧ (_running q = [] → _pending q = [])).
  { intros [? Hidle]. split; [done|]. intros Hp Hr. by apply Hp, Hidle. }
  induction Hq as [|q op q' Hq [IHm IH] _ Hrun]; [done|].
  assert (Hsat : (0 < _max_parallel q')%Z → saturated q' →
            _running q' = [] → _pending q' = []).
  { intros Hm [?|Hfull] Hr; [done|]. rewrite Hr in Hfull. simpl in Hfull. lia. }
  destruct op as [u o d|idx|w txt|w|n|w msg].
  - pose proof (run_op_max_parallel (Enqueue u o d) q q' eq_refl Hrun) as Hm.
    simpl in Hrun. rewrite enqueue_unfold in Hrun.
    rewrite Hm. split; [done|]. apply Hsat; [lia|by eapply launch_exit].
  - pose proof (run_op_max_parallel (Cancel idx) q q' eq_refl Hrun) as Hm.
    simpl in Hrun. rewrite Hm. split; [done|].
    apply cancel_inv in Hrun as [[_ ->]|(r & jb & _ & _ & _ & ->)]; [done|].
    cbn. destruct (cancel_job_frame r jb q) as (_ & -> & Hsub & _).
    intros Hr. rewrite (IH Hr) in Hsub. by apply sublist_nil_r in Hsub.
  - simpl in Hrun. destruct (workers q !! w); [|done].
    apply handle_status_frame in Hrun as (-> & -> & -> & _). done.
  - pose proof (run_op_max_parallel (WorkerFinished w) q q' eq_refl Hrun) as Hm.
    simpl in Hrun. rewrite Hm. split; [done|].
    destruct (workers q !! w) as [wk|]; [|done].
    apply on_finished_inv in Hrun as (jb & q2 & q3 & _ & _ & _ & H4).
    unfold drain_or_launch in H4.
    destruct (_pending q3) eqn:Hp3, (_running q3) eqn:Hr3;
      try (apply Hsat; [lia|by eapply launch_exit]).
    by injection H4 as <-.
  - simpl in Hrun. case_bool_decide; [|done]. by injection Hrun as <-.
  - simpl in Hrun. destruct (workers q !! w); [|done]. by injection Hrun as <-.
Qed.

(** X8. [_handle_status] never launches, removes or finishes a job: the
    pending deque, the running list and the workers are unchanged.  A text
    that starts with ["Error"] sets the job to [Error] and is passed on as
    a message; any other text, ["Finished"] included, changes no job. *)
Theorem handle_status_effect q r txt :
  ∃ q', _handle_status r txt q = Ok q' ∧
        _pending q' = _pending q ∧ _running q' = _running q ∧
        workers q' = workers q ∧ _max_parallel q' = _max_parallel q ∧
        if String.prefix "Error" txt
        then state_of q' r = (fun _ => Error) <$> state_of q r ∧
             (∀ x, x ≠ r → state_of q' x = state_of q x) ∧
             Message txt ∈ signals q'
        else heap q' = heap q ∧ Message txt ∉ drop (length (signals q)) (signals q').
Proof.
  unfold _handle_status.
  destruct (emit_if_tracked_total r
              (if String.prefix "Error" txt
               then emit (Message txt) (set_state r Error q) else q))
    as [q' Hq'].
  exists q'. split; [done|].
  pose proof (emit_if_tracked_frame _ _ _ Hq') as (Hm & Hp & Hr & Hh & Hw).
  apply emit_if_tracked_inv in Hq' as Hsig.
  destruct (String.prefix "Error" txt).
  - do 4 (split; [done|]). unfold state_of. rewrite Hh. cbn.
    split; [|split].
    + rewrite lookup_set_state, decide_True by done.
      by destruct (heap q !! r).
    + intros x Hx. by rewrite lookup_set_state, decide_False.
    + destruct Hsig as [->|[i ->]]; cbn.
      * apply elem_of_app. right. by apply list_elem_of_singleton.
      * apply elem_of_app. left. apply elem_of_app. right.
        by apply list_elem_of_singleton.
  - do 4 (split; [done|]). split; [done|].
    destruct Hsig as [->|[i ->]]; cbn.
    + rewrite drop_all. apply not_elem_of_nil.
    + rewrite drop_app_length. by intros [=]%list_elem_of_singleton.
Qed.

End QueueInvariants.

Lemma queue_never_raises_witness :
  let q := state_after 1 [enq "a"; enq "b"] in
  reachable_by any_op 1 q ∧
  enabled (WorkerFinished 0) q ∧
  ∃ q', run_op (WorkerFinished 0) q = Ok q' ∧ reachable_by any_op 1 q'.
Proof.
  assert (reachable_by any_op 1 (state_after 1 [enq "a"; enq "b"]))
    as Hq by (apply state_after_reachable; reflexivity).
  assert (enabled (WorkerFinished 0) (state_after 1 [enq "a"; enq "b"]))
    as Hen by (eexists; reflexivity).
  split; [exact Hq|]. split; [exact Hen|].
  apply (queue_never_raises 1 (state_after 1 [enq "a"; enq "b"])
           (WorkerFinished 0) Hq Hen).
Defined.

Lemma launch_order_in_every_run_witness :
  let q := state_after 1 [enq "a"; enq "b"; enq "c"; enq "d"; Cancel 0;
                          WorkerFinished 0; SetMaxParallel 2] in
  reachable_by any_op 1 q ∧
  StronglySorted lt (launched q ++ _pending q) ∧
  NoDup (launched q) ∧
  ∀ x y, x ∈ launched q → y ∈ _pending q → x < y.
Proof.
  assert (reachable_by any_op 1
            (state_after 1 [enq "a"; enq "b"; enq "c"; enq "d"; Cancel 0;
                            WorkerFinished 0; SetMaxParallel 2]))
    as Hq by (apply state_after_reachable; reflexivity).
  split; [exact Hq|]. apply (launch_order_in_every_run 1), Hq.
Defined.

Lemma jobs_no_duplicates_witness :
  let q := state_after 2 [enq "u"; enq "u"; enq "u"; enq "u"; Cancel 1] in
  reachable_by any_op 2 q ∧ NoDup (jobs q).
Proof.
  assert (reachable_by any_op 2
            (state_after 2 [enq "u"; enq "u"; enq "u"; enq "u"; Cancel 1]))
    as Hq by (apply state_after_reachable; reflexivity).
  split; [exact Hq|]. apply (jobs_no_duplicates 2), Hq.
Defined.

Lemma enqueue_launches_iff_slot_free_witness :
  let q := state_after 2 [enq "a"] in
  reachable_by fixed_max 2 q ∧
  ∃ q', enqueue ["b"] demo_opts "/downloads" q = Ok q' ∧
        heap q' !! length (heap q) ≠ None ∧
        if bool_decide (Z.of_nat (length (_running q)) < _max_parallel q)%Z
        then _pending q = [] ∧ _pending q' = [] ∧
             _running q' = _running q ++ [length (heap q)] ∧
             state_of q' (length (heap q)) = Some Running
        else _pending q' = _pending q ++ [length (heap q)] ∧
             _running q' = _running q ∧
             state_of q' (length (heap q)) = Some Queued.
Proof.
  assert (reachable_by fixed_max 2 (state_after 2 [enq "a"]))
    as Hq by (apply state_after_reachable; reflexivity).
  split; [exact Hq|].
  apply (enqueue_launches_iff_slot_free 2 (state_after 2 [enq "a"])), Hq.
Defined.

Lemma no_done_job_is_tracked_witness :
  let q := state_after 1 [enq "a"; enq "b"; WorkerFinished 0] in
  let jb := mkJob ["b"] demo_opts "/downloads" Running (Some 1) in
  reachable_by any_op 1 q ∧ 1 ∈ jobs q ∧ heap q !! 1 = Some jb ∧
  state jb ≠ Done.
Proof.
  assert (reachable_by any_op 1
            (state_after 1 [enq "a"; enq "b"; WorkerFinished 0]))
    as Hq by (apply state_after_reachable; reflexivity).
  assert (1 ∈ jobs (state_after 1 [enq "a"; enq "b"; WorkerFinished 0]))
    as Hin by (vm_compute; left).
  split; [exact Hq|]. split; [exact Hin|]. split; [reflexivity|].
  apply (no_done_job_is_tracked 1
           (state_after 1 [enq "a"; enq "b"; WorkerFinished 0]) 1);
    [exact Hq|exact Hin|reflexivity].
Defined.

Lemma cancelled_running_job_never_done_witness :
  let q := state_after 1 [enq "a"; Cancel 0; WorkerFinished 0] in
  let wk := mkWorker ["a"] demo_opts 0 true in
  reachable_by any_op 1 q ∧ workers q !! 0 = Some wk ∧
  w_terminated wk = true ∧
  ∃ jb, heap q !! w_job wk = Some jb ∧
        (state jb = Cancelled ∨ state jb = Error).
Proof.
  assert (reachable_by any_op 1
            (state_after 1 [enq "a"; Cancel 0; WorkerFinished 0]))
    as Hq by (apply state_after_reachable; reflexivity).
  split; [exact Hq|]. split; [reflexivity|]. split; [reflexivity|].
  apply (cancelled_running_job_never_done 1
           (state_after 1 [enq "a"; Cancel 0; WorkerFinished 0]) 0);
    [exact Hq|reflexivity|reflexivity].
Defined.

Lemma pending_implies_running_witness :
  let q := state_after 1 [enq "a"; enq "b"; SetMaxParallel 3; Cancel 1] in
  (0 < 1)%Z ∧ reachable_by any_op 1 q ∧
  (0 < _max_parallel q)%Z ∧ (_pending q ≠ [] → _running q ≠ []).
Proof.
  assert (reachable_by any_op 1
            (state_after 1 [enq "a"; enq "b"; SetMaxParallel 3; Cancel 1]))
    as Hq by (apply state_after_reachable; reflexivity).
  split; [lia|]. split; [exact Hq|].
  apply (pending_implies_running 1); [lia|exact Hq].
Defined.

Lemma cancel_running_witness :
  let q := state_after 1 [enq "a"; enq "b"] in
  let jb := mkJob ["a"] demo_opts "/downloads" Running (Some 0) in
  ((0 ≤ 1)%Z ∧ jobs q !! Z.to_nat 1 = Some 0 ∧ heap q !! 0 = Some jb ∧
   state jb = Running ∧ worker jb = Some 0 ∧ is_Some (workers q !! 0)) ∧
  ∃ q', cancel 1 q = Ok q' ∧
        state_of q' 0 = Some Cancelled ∧
        w_terminated <$> workers q' !! 0 = Some true ∧
        _pending q' = _pending q ∧ _running q' = _running q.
Proof.
  assert (is_Some (workers (state_after 1 [enq "a"; enq "b"]) !! 0))
    as Hw by (eexists; reflexivity).
  split; [split_and!; [lia|reflexivity|reflexivity|reflexivity|reflexivity|exact Hw]|].
  apply (cancel_running (state_after 1 [enq "a"; enq "b"]) 1 0
           (mkJob ["a"] demo_opts "/downloads" Running (Some 0)) 0);
    [lia|reflexivity|reflexivity|reflexivity|reflexivity|exact Hw].
Defined.

Lemma cancel_queued_unique_witness :
  let q := state_after 1 [enq "a"; enq "b"; enq "c"] in
  let jb := mkJob ["b"] demo_opts "/downloads" Queued None in
  (wf q ∧ (0 ≤ 0)%Z ∧ jobs q !! Z.to_nat 0 = Some 1 ∧ heap q !! 1 = Some jb ∧
   state jb = Queued ∧
   ∀ x, x ∈ _pending q → x ≠ 1 → py_eq (heap q) x 1 = false) ∧
  ∃ q', cancel 0 q = Ok q' ∧
        state_of q' 1 = Some Cancelled ∧
        (1 ∉ _pending q') ∧
        (∀ x, x ∈ _pending q → x ≠ 1 → x ∈ _pending q') ∧
        _running q' = _running q.
Proof.
  assert (wf (state_after 1 [enq "a"; enq "b"; enq "c"])) as Hwf.
  { apply (wf_reachable any_op 1). apply state_after_reachable; reflexivity. }
  assert (∀ x, x ∈ _pending (state_after 1 [enq "a"; enq "b"; enq "c"]) →
               x ≠ 1 →
               py_eq (heap (state_after 1 [enq "a"; enq "b"; enq "c"])) x 1 = false)
    as Huniq.
  { intros x Hx Hne.
    change (_pending (state_after 1 [enq "a"; enq "b"; enq "c"])) with [1; 2] in Hx.
    apply elem_of_cons in Hx as [->|Hx]; [done|].
    apply list_elem_of_singleton in Hx as ->. reflexivity. }
  split; [split_and!; [exact Hwf|lia|reflexivity|reflexivity|reflexivity|exact Huniq]|].
  apply (cancel_queued_unique (state_after 1 [enq "a"; enq "b"; enq "c"]) 0 1
           (mkJob ["b"] demo_opts "/downloads" Queued None));
    [exact Hwf|lia|reflexivity|reflexivity|reflexivity|exact Huniq].
Defined.
